(** * qa-eval: the prompt builder, the judgment parser and the evaluation driver

  A shallow embedding of [src/qaeval/openllm.py] and proofs about it.

  Python [str] values are modelled as [string]; a character is an 8-bit
  code point (the Latin-1 block of Unicode), and the case and white-space
  tables below are Python's tables restricted to that block. *)

From Stdlib Require Import Ascii String ZArith QArith Qround Lia Bool.
From stdpp Require Import base option list strings gmap.

Local Open Scope Z_scope.
Local Open Scope stdpp_scope.

(** ** Python string primitives *)

Module PyStr.

Definition code (c : ascii) : N := N_of_ascii c.

Definition in_range (lo hi : N) (c : ascii) : bool :=
  ((lo <=? code c) && (code c <=? hi))%N.

(** [str.isspace] on one character: TAB..CR, FS..US, SPACE, NEL, NBSP. *)
Definition isspace (c : ascii) : bool :=
  in_range 9 13 c || in_range 28 32 c
  || (code c =? 133)%N || (code c =? 160)%N.

(** Upper-case letters of the block: A..Z and the accented capitals
    U+00C0..U+00DE without the multiplication sign U+00D7. *)
Definition is_upper (c : ascii) : bool :=
  in_range 65 90 c || (in_range 192 222 c && negb (code c =? 215)%N).

Definition lower_char (c : ascii) : ascii :=
  if is_upper c then ascii_of_N (code c + 32) else c.

(** Letters whose title-case image is again one character of the block:
    a..z and U+00E0..U+00FE without the division sign U+00F7. *)
Definition is_lower_with_upper (c : ascii) : bool :=
  in_range 97 122 c || (in_range 224 254 c && negb (code c =? 247)%N).

(** Title-casing of the first character in [str.capitalize].  The sharp s
    U+00DF becomes the two characters "Ss".  Two letters of the block have
    their image above U+00FF (the micro sign and y with diaeresis); they
    are left as they are, and [_parse_response] never reaches them: it
    capitalizes a captured yes/no token only. *)
Definition title_char (c : ascii) : string :=
  if is_lower_with_upper c then String (ascii_of_N (code c - 32)) ""
  else if (code c =? 223)%N then "Ss"
  else String c "".

(** [str.lower] *)
Fixpoint lower (s : string) : string :=
  match s with
  | "" => ""
  | String c s' => String (lower_char c) (lower s')
  end.

(** [str.capitalize] *)
Definition capitalize (s : string) : string :=
  match s with
  | "" => ""
  | String c s' => title_char c +:+ lower s'
  end.

(** [s.startswith(p)] *)
Fixpoint startswith (s p : string) : bool :=
  match p, s with
  | "", _ => true
  | String _ _, "" => false
  | String pc p', String c s' => Ascii.eqb c pc && startswith s' p'
  end.

(** [s.endswith(p)] for a one-character [p]. *)
Fixpoint endswith_char (s : string) (p : ascii) : bool :=
  match s with
  | "" => false
  | String c "" => Ascii.eqb c p
  | String _ s' => endswith_char s' p
  end.

(** [sub in s] *)
Fixpoint contains (s sub : string) : bool :=
  startswith s sub ||
  match s with
  | "" => false
  | String _ s' => contains s' sub
  end.

(** [s[:-1]] *)
Fixpoint drop_last (s : string) : string :=
  match s with
  | "" => ""
  | String _ "" => ""
  | String c s' => String c (drop_last s')
  end.

Fixpoint lstrip (s : string) : string :=
  match s with
  | "" => ""
  | String c s' => if isspace c then lstrip s' else s
  end.

Fixpoint rstrip (s : string) : string :=
  match s with
  | "" => ""
  | String c s' =>
      match rstrip s' with
      | "" => if isspace c then "" else String c ""
      | r => String c r
      end
  end.

(** [s.strip()] *)
Definition strip (s : string) : string := rstrip (lstrip s).

(** [s.split(sep)] for a non-empty [sep]: the separators are found from the
    left and do not overlap.  [skip] counts the characters of a separator
    just found that are still to be passed over; [cur] is the current
    segment, reversed. *)
Fixpoint split_go (sep : string) (skip : nat) (cur : string) (s : string)
  : list string :=
  match s with
  | "" => [String.rev cur]
  | String c s' =>
      match skip with
      | S k => split_go sep k cur s'
      | O =>
          if startswith s sep
          then String.rev cur :: split_go sep (String.length sep - 1) "" s'
          else split_go sep 0 (String c cur) s'
      end
  end.

Definition split (s sep : string) : list string := split_go sep 0 "" s.

(** [sep.join(parts)] *)
Fixpoint join (sep : string) (parts : list string) : string :=
  match parts with
  | [] => ""
  | [p] => p
  | p :: rest => p +:+ sep +:+ join sep rest
  end.

(** [s[:n]] *)
Fixpoint take (n : nat) (s : string) : string :=
  match n, s with
  | S n', String c s' => String c (take n' s')
  | _, _ => ""
  end.

End PyStr.

(** ** The fragment of [re] the patterns use

  Flags are fixed to [re.IGNORECASE | re.MULTILINE | re.DOTALL], as in every
  call of the source.  Quantifiers [*] and [+] occur on single-character
  items only; [?] occurs on items and on groups. *)

Module Re.

Inductive atom :=
| AAny                      (* .  (DOTALL: every character) *)
| ALit (c : ascii)          (* a literal character *)
| ASet (cs : list ascii)    (* [...] *)
| ASpace.                   (* \s *)

Inductive regex :=
| REps
| RAtom (a : atom)
| RStar (a : atom)          (* a*  greedy *)
| RPlus (a : atom)          (* a+  greedy *)
| ROpt (r : regex)          (* r?  greedy *)
| RSeq (r1 r2 : regex)
| RAlt (r1 r2 : regex)      (* r1|r2, left first *)
| RGroup (n : nat) (r : regex)
| REol.                     (* $  (MULTILINE) *)

(** The groups of a match object: group number to captured text. *)
Abbreviation groups := (gmap nat string).

Definition char_eq_ci (c p : ascii) : bool :=
  Ascii.eqb (PyStr.lower_char c) (PyStr.lower_char p).

Definition atom_matches (a : atom) (c : ascii) : bool :=
  match a with
  | AAny => true
  | ALit p => char_eq_ci c p
  | ASet cs => existsb (char_eq_ci c) cs
  | ASpace => PyStr.isspace c
  end.

(** [$] under MULTILINE: at the end of the text or before a newline. *)
Definition at_eol (s : string) : bool :=
  match s with
  | "" => true
  | String c _ => Ascii.eqb c "010"
  end.

(** The text consumed between the input [s] and its suffix [s']. *)
Definition consumed (s s' : string) : string :=
  PyStr.take (String.length s - String.length s') s.

(** Greedy repetition of a one-character item, with backtracking: the
    longest run is tried first, then shorter ones. *)
Fixpoint star_greedy {A} (a : atom) (s : string) (k : string -> option A)
  : option A :=
  match s with
  | "" => k s
  | String c s' =>
      if atom_matches a c then
        match star_greedy a s' k with
        | Some x => Some x
        | None => k s
        end
      else k s
  end.

(** The backtracking matcher, in continuation-passing style: [k] is what
    remains to be matched after [r]. *)
Fixpoint rmatch (r : regex) (s : string) (g : groups)
    (k : string -> groups -> option groups) : option groups :=
  match r with
  | REps => k s g
  | RAtom a =>
      match s with
      | "" => None
      | String c s' => if atom_matches a c then k s' g else None
      end
  | RStar a => star_greedy a s (fun s' => k s' g)
  | RPlus a =>
      match s with
      | "" => None
      | String c s' =>
          if atom_matches a c then star_greedy a s' (fun s'' => k s'' g)
          else None
      end
  | ROpt r1 =>
      match rmatch r1 s g k with
      | Some x => Some x
      | None => k s g
      end
  | RSeq r1 r2 => rmatch r1 s g (fun s' g' => rmatch r2 s' g' k)
  | RAlt r1 r2 =>
      match rmatch r1 s g k with
      | Some x => Some x
      | None => rmatch r2 s g k
      end
  | RGroup n r1 =>
      rmatch r1 s g (fun s' g' => k s' (<[n := consumed s s']> g'))
  | REol => if at_eol s then k s g else None
  end.

(** [re.match(r, s, flags)]: a match at position 0, not necessarily up to
    the end.  [None] is Python's [None]. *)
Definition re_match (r : regex) (s : string) : option groups :=
  rmatch r s ∅ (fun _ g => Some g).

(** [re.search(r, s, flags)]: the first position with a match. *)
Fixpoint re_search (r : regex) (s : string) : option groups :=
  match re_match r s with
  | Some g => Some g
  | None =>
      match s with
      | "" => None
      | String _ s' => re_search r s'
      end
  end.

(** Does the pattern have a group numbered [n]? *)
Fixpoint has_group (n : nat) (r : regex) : bool :=
  match r with
  | ROpt r1 => has_group n r1
  | RSeq r1 r2 | RAlt r1 r2 => has_group n r1 || has_group n r2
  | RGroup m r1 => Nat.eqb n m || has_group n r1
  | _ => false
  end.

(** A literal text. *)
Fixpoint lit (s : string) : regex :=
  match s with
  | "" => REps
  | String c s' => RSeq (RAtom (ALit c)) (lit s')
  end.

Fixpoint rcat (rs : list regex) : regex :=
  match rs with
  | [] => REps
  | [r] => r
  | r :: rs' => RSeq r (rcat rs')
  end.

End Re.

(** ** Exceptions and log records *)

Inductive exn :=
| AttributeError
| IndexError
| KeyError (key : string)
| ValueError
| AssertionError (msg : string)
| Unsupported.      (* not an exception of Python: the mark of a template
                       outside the modelled fragment of [str.format]; what
                       the source does with such a template is not
                       modelled, and no statement below is about it *)

(** A call of [logger.warning].  The message of the endpoint failure starts
    with a fixed Hangul text, outside the 8-bit characters; the record keeps
    the text of the exception. *)
Inductive log_record :=
| Warning (msg : string)
| WarningOllamaFailed (e : string).

(** ** The judgment parser: [_parse_response] *)

Import PyStr Re.

Definition dq : ascii := "034".          (* the double quote *)
Definition nl : ascii := "010".          (* the newline *)

Definition quote_opt : regex := ROpt (RAtom (ASet ["'"%char; dq])).
Definition yes_no (n : nat) : regex := RGroup n (RAlt (lit "yes") (lit "no")).
Definition bang_opt : regex := ROpt (RAtom (ASet ["."%char; "!"%char])).

(** [phrase\s+['\"]?(yes|no)['\"]?[.!]?] after [.*] *)
Definition said (phrase : string) : regex :=
  rcat [RStar AAny; lit phrase; RPlus ASpace; quote_opt; yes_no 1; quote_opt;
       bang_opt].

(** An element of the list [patterns]: a pattern, or a pair of a pattern and
    the index of the group that holds the token. *)
Inductive pattern_entry :=
| PStr (r : regex)
| PTuple (r : regex) (match_idx : nat).

Definition patterns : list pattern_entry :=
  [ (* .*['\"]?(yes|no)\.?['\"]?[.!]?$ *)
    PStr (rcat [RStar AAny; quote_opt; yes_no 1; ROpt (RAtom (ALit "."));
               quote_opt; bang_opt; REol]);
    (* .*I can answer\s+['\"]?(yes|no)['\"]?[.!]? *)
    PStr (said "I can answer");
    (* .*I would say\s+['\"]?(yes|no)['\"]?[.!]? *)
    PStr (said "I would say");
    (* .*I must say\s+['\"]?(yes|no)['\"]?[.!]? *)
    PStr (said "I must say");
    (* (.*my (final )?judgment is\s+['\"]?(yes|no)['\"]?[.!]?, 2) *)
    PTuple (rcat [RStar AAny; lit "my "; ROpt (RGroup 1 (lit "final "));
                 lit "judgment is"; RPlus ASpace; quote_opt; yes_no 2;
                 quote_opt; bang_opt]) 2;
    (* .*I would judge the candidate answer as\s+['\"]?(yes|no)['\"]?[.!]? *)
    PStr (said "I would judge the candidate answer as");
    (* .*\s+['\"]?(yes|no)['\"]?,? the candidate( answer)? is *)
    PStr (rcat [RStar AAny; RPlus ASpace; quote_opt; yes_no 1; quote_opt;
               ROpt (RAtom (ALit ",")); lit " the candidate";
               ROpt (RGroup 2 (lit " answer")); lit " is"]);
    (* .*[jJ]udgment:\s+['\"]?(yes|no)\.?['\"]? *)
    PStr (rcat [RStar AAny; RAtom (ASet ["j"%char; "J"%char]); lit "udgment:";
               RPlus ASpace; quote_opt; yes_no 1; ROpt (RAtom (ALit "."));
               quote_opt]) ].

Definition correct_patterns : list regex :=
  [ (* candidate( answer)? is correct *)
    rcat [lit "candidate"; ROpt (RGroup 1 (lit " answer")); lit " is correct"];
    (* candidate's correct *)
    lit "candidate's correct" ].

(** [matched.group(match_idx)]: no such group is an [IndexError]; a group
    that took no part in the match is [None], and the call of [.capitalize()]
    on it an [AttributeError]. *)
Definition group (m : groups) (r : regex) (match_idx : nat) : exn + string :=
  if has_group match_idx r then
    match m !! match_idx with
    | Some text => inr text
    | None => inl AttributeError
    end
  else inl IndexError.

(** The loop over [patterns], left at the first match. *)
Fixpoint scan_patterns (ps : list pattern_entry) (response : string)
  : exn + string :=
  match ps with
  | [] => inr ""
  | p :: ps' =>
      let '(pattern, match_idx) :=
        match p with
        | PStr r => (r, 1%nat)
        | PTuple r i => (r, i)
        end in
      match re_match pattern response with
      | Some matched =>
          match group matched pattern match_idx with
          | inr text => inr (capitalize text)
          | inl e => inl e
          end
      | None => scan_patterns ps' response
      end
  end.

(** The loop over [correct_patterns]. *)
Fixpoint scan_correct (ps : list regex) (response : string) : string :=
  match ps with
  | [] => ""
  | pattern :: ps' =>
      match re_search pattern response with
      | Some _ => "Yes"
      | None => scan_correct ps' response
      end
  end.

(** Truth value of a string: non-empty. *)
Definition truthy (s : string) : bool := negb (String.eqb s "").

Definition invalid_response_message (question candidate_answer response : string)
  : string :=
  "Invalid response to `" +:+ question +:+ "` & `" +:+ candidate_answer
  +:+ "`: " +:+ response.

(** The result is the returned [int] (or the exception raised) and the log
    records written. *)
Definition _parse_response (response candidate_answer question : string)
  : (exn + Z) * list log_record :=
  let finish (acceptable : string) (log : list log_record) :=
    (inr (Z.b2z (String.eqb acceptable "Yes")), log) in
  if startswith (lower response) "yes" then finish "Yes" []
  else if startswith (lower response) "no" then finish "No" []
  else
    match scan_patterns patterns response with
    | inl e => (inl e, [])
    | inr acceptable =>
        let acceptable :=
          if truthy acceptable then acceptable
          else scan_correct correct_patterns response in
        if truthy acceptable then finish acceptable []
        else
          finish acceptable
            [Warning (invalid_response_message question candidate_answer
                        response)]
    end.

(** ** The prompt builder: [_prepare] *)

(** A value passed to [str.format]: a string or [None]. *)
Inductive pyval :=
| VStr (s : string)
| VNone.

(** [str(v)] *)
Definition str_of (v : pyval) : string :=
  match v with
  | VStr s => s
  | VNone => "None"
  end.

Definition is_digit (c : ascii) : bool := in_range 48 57 c.

Fixpoint all_digits (s : string) : bool :=
  match s with
  | "" => true
  | String c s' => is_digit c && all_digits s'
  end.

(** What a replacement field [{name}] is replaced with.  No positional
    argument is passed by the source: an empty or numeric name is out of
    range.  (An index of 19 digits or more may overflow instead; it is left
    outside the model.) *)
Definition format_field (kwargs : gmap string pyval) (name : string)
  : exn + string :=
  if all_digits name then
    if (String.length name <=? 18)%nat then inl IndexError else inl Unsupported
  else
    match kwargs !! name with
    | Some v => inr (str_of v)
    | None => inl (KeyError name)
    end.

(** Characters that start a conversion, a format specification, an attribute
    or index access, or a nested field: outside the modelled fragment. *)
Definition field_special (c : ascii) : bool :=
  existsb (Ascii.eqb c) ["{"%char; "!"%char; ":"%char; "."%char; "["%char].

(** Where the scan of the template stands: in literal text, after a "{"
    or a "}" that may be the first of a doubled one, or inside a replacement
    field whose name so far is [f], reversed. *)
Inductive fmt_state :=
| FText
| FOpen
| FClose
| FField (f : string).

(** [v] followed by the rest of the output, when there is one. *)
Definition emit (v : string) (rest : exn + string) : exn + string :=
  match rest with
  | inl e => inl e
  | inr t => inr (v +:+ t)
  end.

(** [template.format] with keyword arguments [kwargs], from left to right;
    the first error met is the exception raised. *)
Fixpoint format_go (kwargs : gmap string pyval) (st : fmt_state) (s : string)
  : exn + string :=
  match s with
  | "" =>
      match st with
      | FText => inr ""
      | _ => inl ValueError    (* a single brace, or a field not closed *)
      end
  | String c s' =>
      let in_field (f : string) :=
        if Ascii.eqb c "}" then
          match format_field kwargs (String.rev f) with
          | inl e => inl e
          | inr v => emit v (format_go kwargs FText s')
          end
        else if field_special c then inl Unsupported
        else format_go kwargs (FField (String c f)) s' in
      match st with
      | FText =>
          if Ascii.eqb c "{" then format_go kwargs FOpen s'
          else if Ascii.eqb c "}" then format_go kwargs FClose s'
          else emit (String c "") (format_go kwargs FText s')
      | FOpen =>
          if Ascii.eqb c "{" then emit "{" (format_go kwargs FText s')
          else in_field ""
      | FClose =>
          if Ascii.eqb c "}" then emit "}" (format_go kwargs FText s')
          else inl ValueError  (* Single '}' encountered *)
      | FField f => in_field f
      end
  end.

Definition format (template : string) (kwargs : gmap string pyval)
  : exn + string :=
  format_go kwargs FText template.

(** [Question] and [Candidate] of [data_utils], by the attributes the source
    reads. *)
Record Question := { text : string; answers : list string }.
Record Candidate := { question : Question; answer : string }.

(** An element of [candidates]: a [Candidate] or a dict with the keys
    "answers", "candidate_answer" and "question". *)
Inductive candidate_input :=
| CObj (c : Candidate)
| CDict (d_answers : list string) (d_candidate_answer d_question : string).

Record turn := { role : string; content : string }.

(** A prepared prompt: the filled template, or a chat for a conversational
    model. *)
Inductive prompt :=
| Flat (s : string)
| Chat (c : list turn).

Definition CONVERSATIONAL_MODELS : gset string :=
  list_to_set
    [ "meta-llama/Llama-2-7b-chat-hf";
      "meta-llama/Llama-2-13b-chat-hf";
      "mistralai/Mistral-7B-Instruct-v0.1";
      "HuggingFaceH4/zephyr-7b-beta";
      "allenai/tulu-2-7b";
      "allenai/tulu-2-dpo-7b" ].

Definition _is_conversational (model_name_or_path : string) : bool :=
  bool_decide (model_name_or_path ∈ CONVERSATIONAL_MODELS).

(** [", ".join([f'"{a}"' for a in gold_answers])] *)
Definition render_gold (gold_answers : list string) : string :=
  join ", " (map (fun a => String dq (a +:+ String dq "")) gold_answers).

(** [if not question.endswith("?"): question += "?"] *)
Definition normalize_question (question : string) : string :=
  if endswith_char question "?" then question else question +:+ "?".

(** The chat of one filled prompt (lines 97-110). *)
Definition build_chat (model_name_or_path prompt : string) : list turn :=
  let '(instruction, content) :=
    if contains model_name_or_path "Mistral"
       || contains model_name_or_path "tulu-2"
    then (None, prompt)
    else
      let sections := split prompt "###" in
      (if (1 <? length sections)%nat
       then Some (join "###" (removelast sections))
       else None,
       strip (List.last sections "")) in
  let chat :=
    match instruction with
    | Some i => if truthy i then [{| role := "system"; content := i |}] else []
    | None => []
    end in
  chat ++ [{| role := "user"; content := content |}].

(** The fields read from a candidate (lines 73-81). *)
Definition candidate_fields (candidate : candidate_input)
  : list string * string * string :=
  match candidate with
  | CObj c => (answers (question c), answer c, text (question c))
  | CDict a ca q => (a, ca, q)
  end.

(** The keyword arguments of both calls of [format]. *)
Definition base_kwargs (question gold_answers candidate_answer : string)
  : gmap string pyval :=
  <["q" := VStr question]>
    (<["answers" := VStr gold_answers]>
       (<["candidate_answer" := VStr candidate_answer]> ∅)).

(** [context_passage.get(question, context_passage.get(question[:-1], None))] *)
Definition lookup_passage (ctx : gmap string string) (question : string)
  : pyval :=
  match ctx !! question with
  | Some p => VStr p
  | None =>
      match ctx !! drop_last question with
      | Some p => VStr p
      | None => VNone
      end
  end.

(** The filled template of one candidate (lines 83-94).  [context_passage]
    is the loaded context file, [None] when no file is given or it does not
    exist. *)
Definition fill_template (prompt_template : string)
    (context_passage : option (gmap string string))
    (candidate : candidate_input) : exn + string :=
  let '(gold_answers, candidate_answer, question) :=
    candidate_fields candidate in
  let gold_answers := render_gold gold_answers in
  let question := normalize_question question in
  let base := base_kwargs question gold_answers candidate_answer in
  match context_passage with
  | Some ctx =>
      if bool_decide (ctx ≠ ∅) then
        format prompt_template
          (<["passage" := lookup_passage ctx question]> base)
      else format prompt_template base
  | None => format prompt_template base
  end.

(** The body of the loop over the candidates. *)
Definition prepare_one (prompt_template model_name_or_path : string)
    (context_passage : option (gmap string string))
    (candidate : candidate_input) : exn + prompt :=
  match fill_template prompt_template context_passage candidate with
  | inl e => inl e
  | inr prompt =>
      if _is_conversational model_name_or_path
      then inr (Chat (build_chat model_name_or_path prompt))
      else inr (Flat prompt)
  end.

Fixpoint prepare_loop (prompt_template model_name_or_path : string)
    (context_passage : option (gmap string string))
    (candidates : list candidate_input) : exn + list prompt :=
  match candidates with
  | [] => inr []
  | c :: cs =>
      match prepare_one prompt_template model_name_or_path context_passage c with
      | inl e => inl e
      | inr p =>
          match prepare_loop prompt_template model_name_or_path
                  context_passage cs with
          | inl e => inl e
          | inr ps => inr (p :: ps)
          end
      end
  end.

(** [prompt_file] is the text of the prompt file. *)
Definition _prepare (candidates : list candidate_input) (prompt_file : string)
    (model_name_or_path : string)
    (context_passage : option (gmap string string)) : exn + list prompt :=
  prepare_loop (strip prompt_file) model_name_or_path context_passage
    candidates.

(** ** The second-pass builder: [_prepare_second_pass] *)

(** An element of [model_responses]: one text, or a list of sampled texts. *)
Inductive model_response :=
| RespStr (s : string)
| RespList (l : list string).

(** An element of a chat that [_prepare_second_pass] builds: [history] is a
    Python list, and holds whatever was appended to it, a turn or a list of
    turns. *)
Inductive history_item :=
| HTurn (t : turn)
| HList (c : list turn).

Definition FOLLOW_UP : string :=
  "Please tell me your final judgment in only 'yes' or 'no'".

(** [if "###" in r: r = r.split("###")[0].strip()] *)
Definition truncate_response (r : string) : string :=
  if contains r "###" then strip (hd "" (split r "###")) else r.

Fixpoint _prepare_second_pass (chats : list (list turn))
    (model_responses : list model_response) : list (list history_item) :=
  match chats, model_responses with
  | chat :: chats', resp :: model_responses' =>
      let history :=
        match chat with
        | t :: rest =>
            if String.eqb (role t) "system"
            then [HList rest]            (* history.append(chat[1:]) *)
            else map HTurn chat          (* history.extend(chat) *)
        | [] => []
        end in
      let resp :=
        match resp with
        | RespStr s => [s]
        | RespList l => l
        end in
      map (fun r =>
             history ++
             [HTurn {| role := "assistant"; content := truncate_response r |};
              HTurn {| role := "user"; content := FOLLOW_UP |}])
        resp
      ++ _prepare_second_pass chats' model_responses'
  | _, _ => []
  end.

(** ** The driver: [llm_eval] *)

(** The value of the "prompt" key of the request body: the text of the
    prompt, or (a chat whose last turn is not a user turn) that last turn. *)
Inductive payload :=
| PText (s : string)
| PTurn (t : turn).

(** The JSON body posted to the generation endpoint. *)
Record request := { req_model : string; req_prompt : payload; req_stream : bool }.

(** [round(a / b)] of Python on two integers, [b] non-zero: the quotient is
    rounded to the nearest integer, a tie to the even one. *)
Definition py_round_div (a b : Z) : Z :=
  let q := (inject_Z a / inject_Z b)%Q in
  let f := Qfloor q in
  match (q - inject_Z f ?= 1 # 2)%Q with
  | Lt => f
  | Gt => f + 1
  | Eq => if Z.even f then f else f + 1
  end.

(** [sum(judgments)] *)
Definition sum (l : list Z) : Z := fold_right Z.add 0 l.

Section Driver.

(** The inference endpoint: the state of the outside world, and what a POST
    of a request does to it, replying with the "response" text of the body
    ([inr]) or raising inside the [try] block ([inl], with the text of the
    exception).  The value of "response" is taken to be a text, as the
    generation endpoint gives it; a body whose "response" is another JSON
    value, which the source would append and then fail on outside the [try],
    is outside the model. *)
Variable World : Type.
Variable ollama : World -> request -> (string + string) * World.

(** The state threaded through [llm_eval]: the world, the requests posted so
    far and the log records written so far. *)
Record state := { world : World; sent : list request; log : list log_record }.

Definition M (A : Type) : Type := state -> (exn + A) * state.

Definition ret {A} (x : A) : M A := fun st => (inr x, st).
Definition raise {A} (e : exn) : M A := fun st => (inl e, st).
Definition bind {A B} (c : M A) (k : A -> M B) : M B :=
  fun st =>
    match c st with
    | (inr x, st') => k x st'
    | (inl e, st') => (inl e, st')
    end.

Local Notation "x <- c ;; k" := (bind c (fun x => k))
  (at level 100, c at next level, right associativity).

Definition lift {A} (r : exn + A) : M A :=
  match r with
  | inr x => ret x
  | inl e => raise e
  end.

Definition tell (records : list log_record) : M unit :=
  fun st =>
    (inr tt,
     {| world := world st; sent := sent st; log := log st ++ records |}).

(** The [try] block: the POST and the reading of the reply; a failure is
    logged and replaced with the empty response. *)
Definition generate (model_name_or_path : string) (prompt_text : payload)
  : M string :=
  fun st =>
    let req := {| req_model := model_name_or_path; req_prompt := prompt_text;
                  req_stream := false |} in
    let '(reply, w) := ollama (world st) req in
    match reply with
    | inr response =>
        (inr response,
         {| world := w; sent := sent st ++ [req]; log := log st |})
    | inl e =>
        (inr "",
         {| world := w; sent := sent st ++ [req];
            log := log st ++ [WarningOllamaFailed e] |})
    end.

(** What is sent for a prompt: a chat gives its last turn's content when
    that is a user turn. *)
Definition prompt_text_of (p : prompt) : exn + payload :=
  match p with
  | Chat c =>
      match List.last (map Some c) None with
      | Some t =>
          if String.eqb (role t) "user" then inr (PText (content t))
          else inr (PTurn t)
      | None => inl IndexError
      end
  | Flat s => inr (PText s)
  end.

(** The first loop: one request per prepared prompt. *)
Fixpoint collect_responses (model_name_or_path : string)
    (examples : list prompt) : M (list string) :=
  match examples with
  | [] => ret []
  | p :: ps =>
      prompt_text <- lift (prompt_text_of p) ;;
      r <- generate model_name_or_path prompt_text ;;
      rs <- collect_responses model_name_or_path ps ;;
      ret (r :: rs)
  end.

(** [_parse_response] with its log records written to the state. *)
Definition parse_logged (response candidate_answer question : string) : M Z :=
  let '(r, records) := _parse_response response candidate_answer question in
  _ <- tell records ;;
  lift r.

(** The second loop, over [range(len(candidates))]. *)
Fixpoint judge_loop (candidates : list candidate_input)
    (responses : list string) (indices : list nat)
  : M (list (Z * string * list Z)) :=
  match indices with
  | [] => ret []
  | index :: indices' =>
      let num_judgments := 1 in
      resp <- lift (from_option inr (inl IndexError) (responses !! index)) ;;
      cand <- lift (from_option inr (inl IndexError) (candidates !! index)) ;;
      j <- match cand with
           | CObj c => parse_logged resp (answer c) (text (question c))
           | CDict _ _ _ => raise AttributeError
           end ;;
      let judgments := [j] in
      let acceptable_count := sum judgments in
      original <- lift (from_option inr (inl IndexError) (responses !! index)) ;;
      let output :=
        (py_round_div acceptable_count num_judgments, original, judgments) in
      outputs <- judge_loop candidates responses indices' ;;
      ret (output :: outputs)
  end.

(** [prompt_file] is the text of the prompt file, [None] when the keyword is
    missing or the file does not exist; [context_file] is the loaded context
    file, if any. *)
Definition llm_eval (model_name_or_path : string)
    (candidates : list candidate_input) (prompt_file : option string)
    (context_file : option (gmap string string))
  : M (list (Z * string * list Z)) :=
  match prompt_file with
  | None => raise (AssertionError "prompt_file is required in llm_eval")
  | Some prompt_file =>
      examples <- lift (_prepare candidates prompt_file model_name_or_path
                          context_file) ;;
      responses <- collect_responses model_name_or_path examples ;;
      judge_loop candidates responses (List.seq 0 (length candidates))
  end.

End Driver.

Arguments world {World}.
Arguments sent {World}.
Arguments log {World}.

(** ** Vocabulary of the statements *)

(** [sub] occurs in [s]. *)
Definition occurs_in (sub s : string) : Prop :=
  exists pre post, s = pre +:+ sub +:+ post.

(** [response] starts with a text that is [token] when lower-cased. *)
Definition starts_with_ci (response token : string) : Prop :=
  exists head rest, response = head +:+ rest /\ lower head = token.

Definition entry_regex (p : pattern_entry) : regex :=
  match p with
  | PStr r => r
  | PTuple r _ => r
  end.

(** No anchored pattern matches [response]. *)
Definition no_anchored_match (response : string) : Prop :=
  Forall (fun p => re_match (entry_regex p) response = None) patterns.

(** [response] is not classified by any rule of the parser. *)
Definition unparseable (response : string) : Prop :=
  startswith (lower response) "yes" = false /\
  startswith (lower response) "no" = false /\
  no_anchored_match response /\
  Forall (fun r => re_search r response = None) correct_patterns.

(** The two tests on the start of the response (lines 157 and 159). *)
Definition starts_yes_or_no (response : string) : bool :=
  startswith (lower response) "yes" || startswith (lower response) "no".

(** [response] holds, somewhere and in any letter case, one of the indirect
    affirmations. *)
Definition affirms_indirectly (response : string) : Prop :=
  exists pre mid post,
    response = pre +:+ mid +:+ post /\
    (lower mid = "candidate answer is correct" \/
     lower mid = "candidate is correct" \/
     lower mid = "candidate's correct").

(** Group [n] takes part in every match of the pattern. *)
Fixpoint binds (n : nat) (r : regex) : bool :=
  match r with
  | RSeq r1 r2 => binds n r1 || binds n r2
  | RAlt r1 r2 => binds n r1 && binds n r2
  | RGroup m r1 => Nat.eqb n m || binds n r1
  | _ => false
  end.

(** The group index an entry of [patterns] is read with. *)
Definition entry_index (p : pattern_entry) : nat :=
  match p with
  | PStr _ => 1%nat
  | PTuple _ i => i
  end.

(** The text the driver records for a reply of the endpoint. *)
Definition response_text (reply : string + string) : string :=
  match reply with
  | inr response => response
  | inl _ => ""
  end.

(** [replies ollama w reqs resps w']: posting the requests [reqs] in order,
    from the world [w], is answered by [resps], one text per request, and
    leaves the world [w']. *)
Inductive replies {World : Type}
    (ollama : World -> request -> (string + string) * World)
  : World -> list request -> list string -> World -> Prop :=
| replies_nil (w : World) : replies ollama w [] [] w
| replies_cons (w w1 w' : World) (req : request) (reply : string + string)
    (reqs : list request) (resps : list string) :
    ollama w req = (reply, w1) ->
    replies ollama w1 reqs resps w' ->
    replies ollama w (req :: reqs) (response_text reply :: resps) w'.

(** The request posted for a prepared prompt: the model, the text of a flat
    prompt or the content of the last turn of a chat that ends with a user
    turn, and no streaming. *)
Definition request_of (model_name_or_path : string) (p : prompt)
    (req : request) : Prop :=
  req_model req = model_name_or_path /\
  req_stream req = false /\
  match p with
  | Flat s => req_prompt req = PText s
  | Chat c =>
      exists before u,
        c = before ++ [{| role := "user"; content := u |}] /\
        (before = [] \/
         exists i, before = [{| role := "system"; content := i |}]) /\
        req_prompt req = PText u
  end.

(** An endpoint for examples: the world is the list of the replies still to
    come; when it is exhausted the connection fails. *)
Definition scripted (w : list (string + string)) (req : request)
  : (string + string) * list (string + string) :=
  match w with
  | [] => (inl "connection refused", [])
  | reply :: w' => (reply, w')
  end.

Definition llama : string := "meta-llama/Llama-2-7b-chat-hf".

Definition president : Candidate :=
  {| question := {| text := "who is the president";
                    answers := ["Joe Biden"] |};
     answer := "Biden" |}.

Definition start_state {World : Type} (w : World) : state World :=
  {| world := w; sent := []; log := [] |}.

(** The turns of the examples. *)
Definition system_turn (s : string) : turn := {| role := "system"; content := s |}.
Definition user_turn (s : string) : turn := {| role := "user"; content := s |}.
Definition assistant_turn (s : string) : turn :=
  {| role := "assistant"; content := s |}.

(** [chat] without a leading system turn. *)
Definition drop_system (chat : list turn) : list turn :=
  match chat with
  | t :: rest => if String.eqb (role t) "system" then rest else chat
  | [] => []
  end.

(** The second-pass chat as the specification words it: the original chat
    with a leading system turn removed, the assistant turn with the truncated
    response, and the follow-up user turn. *)
Definition expected_second_pass (chat : list turn) (r : string)
  : list history_item :=
  map HTurn (drop_system chat)
  ++ [HTurn (assistant_turn (truncate_response r));
      HTurn (user_turn FOLLOW_UP)].

(** The two model families whose prompts are not split (line 97). *)
Definition special_family (model_name_or_path : string) : bool :=
  contains model_name_or_path "Mistral" || contains model_name_or_path "tulu-2".

(** The chat of a split prompt as the specification words it: the
    concatenation of the segments before the last as a system turn, then the
    stripped last segment as the user turn. *)
Definition claimed_split_chat (prompt : string) : list turn :=
  let sections := split prompt "###" in
  [system_turn (String.concat "" (removelast sections));
   user_turn (strip (List.last sections ""))].

(** A text without braces: literal text for [format]. *)
Fixpoint braces_free (s : string) : bool :=
  match s with
  | "" => true
  | String c s' =>
      negb (Ascii.eqb c "{") && negb (Ascii.eqb c "}") && braces_free s'
  end.

(** A field name of the modelled fragment. *)
Fixpoint plain_name (s : string) : bool :=
  match s with
  | "" => true
  | String c s' =>
      negb (Ascii.eqb c "}") && negb (field_special c) && plain_name s'
  end.

(** The keyword arguments of the call of [format] with a passage, for a
    candidate and the value [v] of the passage. *)
Definition passage_kwargs (candidate : candidate_input) (v : pyval)
  : gmap string pyval :=
  let '(gold_answers, candidate_answer, question) :=
    candidate_fields candidate in
  <["passage" := v]>
    (base_kwargs (normalize_question question) (render_gold gold_answers)
       candidate_answer).

(** The question of a candidate, as the lookup of the passage reads it. *)
Definition lookup_key (candidate : candidate_input) : string :=
  normalize_question (candidate_fields candidate).2.

(** [s] ends with a question mark. *)
Definition ends_with_question_mark (s : string) : Prop :=
  exists s', s = s' +:+ "?".

(** The gold answers as the specification words them: each between double
    quotes, in the given order, with a comma and a space between them. *)
Fixpoint quoted_list (gold_answers : list string) : string :=
  match gold_answers with
  | [] => ""
  | a :: rest =>
      String dq a +:+ String dq ""
      +:+ match rest with
          | [] => ""
          | _ => ", " +:+ quoted_list rest
          end
  end.

(** The template of the example of the specification. *)
Definition example_template : string :=
  "Q: {q}" +:+ String nl "Gold: {answers}"
  +:+ String nl "Candidate: {candidate_answer}".

(** The prompt of the example of the specification:
    Q: who is the president? / Gold: "Joe Biden" / Candidate: Biden,
    on three lines. *)
Definition example_prompt : string :=
  "Q: who is the president?"
  +:+ String nl ("Gold: " +:+ String dq ("Joe Biden" +:+ String dq ""))
  +:+ String nl "Candidate: Biden".

(** A context file that has no passage for the question of [president]. *)
Definition other_context : gmap string string :=
  {[ "another question?" := "some passage" ]}.

(** [t] is "yes" or "no" in some letter case. *)
Definition is_token (t : string) : Prop := lower t = "yes" \/ lower t = "no".

(** Group [n] of the pattern is the token group [(yes|no)], it takes part in
    every match, and no later group has its number. *)
Inductive Yields (n : nat) : regex -> Prop :=
| Yields_token : Yields n (yes_no n)
| Yields_left (r1 r2 : regex) :
    Yields n r1 -> has_group n r2 = false -> Yields n (RSeq r1 r2)
| Yields_right (r1 r2 : regex) : Yields n r2 -> Yields n (RSeq r1 r2).

(** Two group tables that agree up to letter case. *)
Definition groups_ci (g1 g2 : groups) : Prop :=
  forall n, lower <$> g1 !! n = lower <$> g2 !! n.

(** Two results of a match that agree up to letter case. *)
Definition match_ci (o1 o2 : option groups) : Prop :=
  match o1, o2 with
  | None, None => True
  | Some g1, Some g2 => groups_ci g1 g2
  | _, _ => False
  end.

(** The names that the source always passes to [format]. *)
Definition base_names : list string := ["q"; "answers"; "candidate_answer"].

(** [s] without its first [n] characters. *)
Fixpoint sdrop (n : nat) (s : string) : string :=
  match n, s with
  | S n', String _ s' => sdrop n' s'
  | _, _ => s
  end.

(** The text before the first occurrence of [sep] in [s] (all of [s] when
    there is none), and the text after that occurrence. *)
Fixpoint before (sep s : string) : string :=
  if startswith s sep then ""
  else
    match s with
    | "" => ""
    | String c s' => String c (before sep s')
    end.

Fixpoint after (sep s : string) : option string :=
  if startswith s sep then Some (sdrop (String.length sep) s)
  else
    match s with
    | "" => None
    | String _ s' => after sep s'
    end.

(** A text of white space only. *)
Fixpoint all_space (s : string) : bool :=
  match s with
  | "" => true
  | String c s' => isspace c && all_space s'
  end.

(** The sampled texts of an element of [model_responses]. *)
Definition samples (resp : model_response) : list string :=
  match resp with
  | RespStr s => [s]
  | RespList l => l
  end.

(** The two turns that end every second-pass chat, for the response [r]. *)
Definition closing_turns (r : string) : list history_item :=
  [HTurn (assistant_turn (truncate_response r)); HTurn (user_turn FOLLOW_UP)].

(** An endpoint that cannot be reached: every POST raises. *)
Definition unreachable (w : unit) (req : request) : (string + string) * unit :=
  (inl "connection refused", tt).

(** ** [vicuna_llm.py]: [infer_vicuna] *)

(** A line written by [print].  The line of the failure starts with a fixed
    Hangul text, outside the 8-bit characters; the record keeps the text of
    the exception. *)
Inductive stdout_line :=
| Printed (s : string)
| PrintedOllamaFailed (e : string).

(** [s * n] of Python on a text. *)
Fixpoint repeat_string (s : string) (n : nat) : string :=
  match n with
  | O => ""
  | S n' => s +:+ repeat_string s n'
  end.

(** The state threaded through [infer_vicuna]: the world, the requests
    posted so far and the lines printed so far. *)
Record vicuna_state (World : Type) :=
  { v_world : World; v_sent : list request; v_stdout : list stdout_line }.

Arguments v_world {World}.
Arguments v_sent {World}.
Arguments v_stdout {World}.

(** [infer_vicuna(prompt, model_name)]: the returned text and the state
    after the call. *)
Definition infer_vicuna {World : Type}
    (ollama : World -> request -> (string + string) * World)
    (prompt model_name : string) (st : vicuna_state World)
  : string * vicuna_state World :=
  let req := {| req_model := model_name; req_prompt := PText prompt;
                req_stream := false |} in
  let '(reply, w) := ollama (v_world st) req in
  let '(outputs, failure) :=
    match reply with
    | inr response => (response, [])
    | inl e => ("", [PrintedOllamaFailed e])
    end in
  (outputs,
   {| v_world := w;
      v_sent := v_sent st ++ [req];
      v_stdout :=
        v_stdout st ++ failure
        ++ [Printed (repeat_string "-" 20);
            Printed ("user: " +:+ prompt);
            Printed ("vicuna: " +:+ outputs);
            Printed (repeat_string "-" 20)] |}).

(** [c] with a capital letter A..Z turned into its small letter, and every
    other character as it is. *)
Definition ascii_lower_char (c : ascii) : ascii :=
  if in_range 65 90 c then ascii_of_N (code c + 32) else c.

(** Two texts have the same image when they are the same up to the case of
    the letters A..Z and a..z. *)
Fixpoint ascii_lower (s : string) : string :=
  match s with
  | "" => ""
  | String c s' => String (ascii_lower_char c) (ascii_lower s')
  end.

(** * Properties *)

(** ** Strings *)

Lemma sapp_nil_l (s : string) : "" +:+ s = s.
Proof. reflexivity. Qed.

Lemma sapp_cons (c : ascii) (s t : string) :
  String c s +:+ t = String c (s +:+ t).
Proof. reflexivity. Qed.

Lemma sapp_nil_r (s : string) : s +:+ "" = s.
Proof. induction s as [|c s IH]; [reflexivity|]. rewrite sapp_cons, IH. reflexivity. Qed.

Lemma sapp_assoc (a b c : string) : (a +:+ b) +:+ c = a +:+ (b +:+ c).
Proof.
  induction a as [|x a IH]; [reflexivity|].
  rewrite !sapp_cons, IH. reflexivity.
Qed.

Lemma lower_app (a b : string) : lower (a +:+ b) = lower a +:+ lower b.
Proof.
  induction a as [|x a IH]; [reflexivity|].
  rewrite sapp_cons. simpl. rewrite IH, sapp_cons. reflexivity.
Qed.

Lemma startswith_app (p s : string) : startswith (p +:+ s) p = true.
Proof.
  induction p as [|x p IH]; [destruct s; reflexivity|].
  rewrite sapp_cons. simpl. rewrite Ascii.eqb_refl, IH. reflexivity.
Qed.

Lemma starts_with_ci_startswith (response token : string) :
  starts_with_ci response token -> startswith (lower response) token = true.
Proof.
  intros (head & rest & -> & <-). rewrite lower_app. apply startswith_app.
Qed.

Lemma startswith_no_not_yes (s : string) :
  startswith s "no" = true -> startswith s "yes" = false.
Proof.
  destruct s as [|c s]; [discriminate|]. simpl.
  destruct (Ascii.eqb_spec c "n") as [->|]; [reflexivity|discriminate].
Qed.

(** ** The judgment parser *)

Lemma scan_patterns_none (response : string) (ps : list pattern_entry) :
  Forall (fun p => re_match (entry_regex p) response = None) ps ->
  scan_patterns ps response = inr "".
Proof.
  induction 1 as [|p ps Hp _ IH]; [reflexivity|].
  destruct p; simpl in *; rewrite Hp; exact IH.
Qed.

Lemma scan_correct_none (response : string) (ps : list regex) :
  Forall (fun r => re_search r response = None) ps ->
  scan_correct ps response = "".
Proof.
  induction 1 as [|r ps Hr _ IH]; [reflexivity|].
  simpl. rewrite Hr. exact IH.
Qed.

(** C1: a response that starts, case-insensitively, with "yes" is judged 1,
    and one that starts with "no" is judged 0, whatever the candidate answer
    and the question are. *)
Theorem parse_response_yes_no_prefix
    (response candidate_answer question : string) :
  (starts_with_ci response "yes" ->
   _parse_response response candidate_answer question = (inr 1, [])) /\
  (starts_with_ci response "no" ->
   _parse_response response candidate_answer question = (inr 0, [])).
Proof.
  split; intros H%starts_with_ci_startswith; unfold _parse_response.
  - rewrite H. reflexivity.
  - rewrite (startswith_no_not_yes _ H), H. reflexivity.
Qed.

Lemma parse_response_yes_no_prefix_witness :
  _parse_response "YES, it is the same person" "Biden" "who?" = (inr 1, []) /\
  _parse_response "No. They differ" "Biden" "who?" = (inr 0, []).
Proof.
  split.
  - apply (proj1 (parse_response_yes_no_prefix
                    "YES, it is the same person" "Biden" "who?")).
    exists "YES", ", it is the same person". split; reflexivity.
  - apply (proj2 (parse_response_yes_no_prefix
                    "No. They differ" "Biden" "who?")).
    exists "No", ". They differ". split; reflexivity.
Defined.

(** C7: "I would say no." is judged 0 and "My final judgment is yes." is
    judged 1, for every candidate answer and question; neither starts with
    yes or no, and the token is found by the cascade of anchored patterns. *)
Theorem parse_response_cascade_examples (candidate_answer question : string) :
  _parse_response "I would say no." candidate_answer question = (inr 0, []) /\
  _parse_response "My final judgment is yes." candidate_answer question
    = (inr 1, []) /\
  starts_yes_or_no "I would say no." = false /\
  starts_yes_or_no "My final judgment is yes." = false /\
  scan_patterns patterns "I would say no." = inr "No" /\
  scan_patterns patterns "My final judgment is yes." = inr "Yes".
Proof. repeat split; vm_compute; reflexivity. Qed.

(** C2: a response that no rule classifies is judged 0, and one warning is
    logged whose text holds the question and the candidate answer; the empty
    response and "I'm not sure what to say" are such responses. *)
Theorem parse_response_default_reject :
  (forall response candidate_answer question,
     unparseable response ->
     exists line,
       _parse_response response candidate_answer question
         = (inr 0, [Warning line]) /\
       occurs_in question line /\ occurs_in candidate_answer line /\
       occurs_in response line) /\
  unparseable "" /\
  unparseable "I'm not sure what to say".
Proof.
  split; [|split; repeat split; repeat constructor; vm_compute; reflexivity].
  intros response ca q (Hy & Hn & Ha & Hc).
  exists (invalid_response_message q ca response).
  unfold _parse_response.
  rewrite Hy, Hn, (scan_patterns_none _ _ Ha), (scan_correct_none _ _ Hc).
  split; [reflexivity|]. unfold invalid_response_message.
  split; [|split].
  - eexists _, _. reflexivity.
  - exists ("Invalid response to `" +:+ q +:+ "` & `"), ("`: " +:+ response).
    rewrite !sapp_assoc. reflexivity.
  - exists ("Invalid response to `" +:+ q +:+ "` & `" +:+ ca +:+ "`: "), "".
    rewrite !sapp_assoc, sapp_nil_r. reflexivity.
Qed.

Lemma parse_response_default_reject_witness :
  exists line,
    _parse_response "I'm not sure what to say" "Biden" "who is the president"
      = (inr 0, [Warning line]) /\
    occurs_in "who is the president" line /\ occurs_in "Biden" line /\
    occurs_in "I'm not sure what to say" line.
Proof.
  apply (proj1 parse_response_default_reject).
  repeat split; repeat constructor; vm_compute; reflexivity.
Defined.

(** *** Matching a literal text *)

Lemma lower_char_idem (c : ascii) : lower_char (lower_char c) = lower_char c.
Proof. destruct c as [[] [] [] [] [] [] [] []]; reflexivity. Qed.

Lemma lower_app_inv (a b mid : string) :
  lower mid = a +:+ b ->
  exists m1 m2, mid = m1 +:+ m2 /\ lower m1 = a /\ lower m2 = b.
Proof.
  revert mid. induction a as [|x a IH]; intros mid H.
  - exists "", mid. auto.
  - destruct mid as [|c mid]; [discriminate|].
    rewrite sapp_cons in H. simpl in H. injection H as Hc H.
    destruct (IH _ H) as (m1 & m2 & -> & H1 & H2).
    exists (String c m1), m2. simpl. rewrite Hc, H1. auto.
Qed.

Lemma rmatch_lit_app (L mid post : string) (g : groups)
    (k : string -> groups -> option groups) :
  lower mid = L -> rmatch (lit L) (mid +:+ post) g k = k post g.
Proof.
  revert mid. induction L as [|p L IH]; intros mid H.
  - destruct mid; [reflexivity|discriminate].
  - destruct mid as [|c mid]; [discriminate|].
    simpl in H. injection H as Hc H. rewrite sapp_cons. simpl.
    unfold char_eq_ci. rewrite <- Hc, lower_char_idem, Ascii.eqb_refl.
    apply IH, H.
Qed.

Lemma rmatch_opt_some (r : regex) (s : string) (g : groups)
    (k : string -> groups -> option groups) :
  is_Some (k s g) -> is_Some (rmatch (ROpt r) s g k).
Proof. intros H. simpl. destruct (rmatch r s g k); eauto. Qed.

Lemma re_search_unfold (r : regex) (s : string) :
  re_search r s =
  match re_match r s with
  | Some g => Some g
  | None => match s with "" => None | String _ s' => re_search r s' end
  end.
Proof. destruct s; reflexivity. Qed.

Lemma re_search_app (r : regex) (pre s : string) :
  is_Some (re_match r s) -> is_Some (re_search r (pre +:+ s)).
Proof.
  intros H. induction pre as [|c pre IH].
  - rewrite sapp_nil_l, re_search_unfold. destruct (re_match r s); eauto.
    destruct H; discriminate.
  - rewrite sapp_cons, re_search_unfold.
    destruct (re_match r (String c (pre +:+ s))); eauto.
Qed.

(** The two patterns of [correct_patterns] match every text that starts with
    a case variant of their phrases. *)
Lemma correct_pattern_with_answer (mid post : string) :
  lower mid = "candidate answer is correct" ->
  is_Some (re_match
             (rcat [lit "candidate"; ROpt (RGroup 1 (lit " answer"));
                    lit " is correct"])
             (mid +:+ post)).
Proof.
  change "candidate answer is correct"
    with ("candidate" +:+ " answer" +:+ " is correct").
  intros (m1 & m23 & -> & H1 & H)%lower_app_inv.
  apply lower_app_inv in H as (m2 & m3 & -> & H2 & H3).
  unfold re_match. rewrite !sapp_assoc. cbn [rcat].
  change (rmatch (RSeq ?a ?b) ?s ?g ?k)
    with (rmatch a s g (fun s' g' => rmatch b s' g' k)).
  rewrite (rmatch_lit_app _ _ _ _ _ H1).
  change (rmatch (RSeq ?a ?b) ?s ?g ?k)
    with (rmatch a s g (fun s' g' => rmatch b s' g' k)).
  cbn [rmatch]. rewrite (rmatch_lit_app _ _ _ _ _ H2).
  rewrite (rmatch_lit_app _ _ _ _ _ H3). eauto.
Qed.

Lemma correct_pattern_without_answer (mid post : string) :
  lower mid = "candidate is correct" ->
  is_Some (re_match
             (rcat [lit "candidate"; ROpt (RGroup 1 (lit " answer"));
                    lit " is correct"])
             (mid +:+ post)).
Proof.
  change "candidate is correct" with ("candidate" +:+ " is correct").
  intros (m1 & m3 & -> & H1 & H3)%lower_app_inv.
  unfold re_match. rewrite !sapp_assoc. cbn [rcat].
  change (rmatch (RSeq ?a ?b) ?s ?g ?k)
    with (rmatch a s g (fun s' g' => rmatch b s' g' k)).
  rewrite (rmatch_lit_app _ _ _ _ _ H1).
  change (rmatch (RSeq ?a ?b) ?s ?g ?k)
    with (rmatch a s g (fun s' g' => rmatch b s' g' k)).
  apply rmatch_opt_some. rewrite (rmatch_lit_app _ _ _ _ _ H3). eauto.
Qed.

Lemma correct_pattern_possessive (mid post : string) :
  lower mid = "candidate's correct" ->
  is_Some (re_match (lit "candidate's correct") (mid +:+ post)).
Proof.
  intros H. unfold re_match. rewrite (rmatch_lit_app _ _ _ _ _ H). eauto.
Qed.

Lemma scan_correct_affirms (response : string) :
  affirms_indirectly response ->
  scan_correct correct_patterns response = "Yes".
Proof.
  intros (pre & mid & post & -> & H).
  unfold correct_patterns. cbn [scan_correct].
  destruct H as [H|[H|H]].
  - destruct (re_search_app _ pre _ (correct_pattern_with_answer _ post H))
      as [g ->]. reflexivity.
  - destruct (re_search_app _ pre _ (correct_pattern_without_answer _ post H))
      as [g ->]. reflexivity.
  - destruct (re_search _ (pre +:+ mid +:+ post)); [reflexivity|].
    destruct (re_search_app _ pre _ (correct_pattern_possessive _ post H))
      as [g ->]. reflexivity.
Qed.

(** C8: a response that does not start with yes or no, that no anchored
    pattern matches, and that holds "candidate answer is correct",
    "candidate is correct" or "candidate's correct" in any letter case, is
    judged 1; so is "The candidate answer is correct because...". *)
Theorem parse_response_indirect_affirmation :
  (forall response candidate_answer question,
     starts_yes_or_no response = false ->
     no_anchored_match response ->
     affirms_indirectly response ->
     _parse_response response candidate_answer question = (inr 1, [])) /\
  (forall candidate_answer question,
     _parse_response "The candidate answer is correct because..."
       candidate_answer question = (inr 1, [])).
Proof.
  split; [|intros; vm_compute; reflexivity].
  intros response ca q [Hy Hn]%orb_false_elim Ha Hc.
  unfold _parse_response.
  rewrite Hy, Hn, (scan_patterns_none _ _ Ha), (scan_correct_affirms _ Hc).
  reflexivity.
Qed.

Lemma parse_response_indirect_affirmation_witness :
  _parse_response "Well, the Candidate's Correct here" "Biden" "who?"
    = (inr 1, []).
Proof.
  apply (proj1 parse_response_indirect_affirmation).
  - vm_compute. reflexivity.
  - repeat constructor; vm_compute; reflexivity.
  - exists "Well, the ", "Candidate's Correct", " here".
    split; [reflexivity|]. right. right. vm_compute. reflexivity.
Defined.

(** *** The parser never raises *)

Lemma star_greedy_inv {A} (a : atom) (s : string) (k : string -> option A)
    (x : A) :
  star_greedy a s k = Some x -> exists s', k s' = Some x.
Proof.
  induction s as [|c s IH]; simpl; [eauto|].
  destruct (atom_matches a c); [|eauto].
  destruct (star_greedy a s k) eqn:E; [|eauto].
  intros [= ->]. apply IH. reflexivity.
Qed.

Lemma rmatch_inv (r : regex) :
  forall s g k m,
    rmatch r s g k = Some m ->
    exists s' g',
      k s' g' = Some m /\
      (forall n, is_Some (g !! n) -> is_Some (g' !! n)) /\
      (forall n, binds n r = true -> is_Some (g' !! n)).
Proof.
  induction r as [|a|a|a|r IH|r1 IH1 r2 IH2|r1 IH1 r2 IH2|i r IH|];
    intros s g k m H; simpl in H.
  - exists s, g. split; [exact H|]. split; [auto|discriminate].
  - destruct s as [|c s]; [discriminate|].
    destruct (atom_matches a c); [|discriminate].
    exists s, g. split; [exact H|]. split; [auto|discriminate].
  - apply star_greedy_inv in H as [s' H].
    exists s', g. split; [exact H|]. split; [auto|discriminate].
  - destruct s as [|c s]; [discriminate|].
    destruct (atom_matches a c); [|discriminate].
    apply star_greedy_inv in H as [s' H].
    exists s', g. split; [exact H|]. split; [auto|discriminate].
  - destruct (rmatch r s g k) eqn:E.
    + injection H as ->. destruct (IH _ _ _ _ E) as (s' & g' & Hk & Hp & _).
      exists s', g'. split; [exact Hk|]. split; [exact Hp|discriminate].
    + exists s, g. split; [exact H|]. split; [auto|discriminate].
  - destruct (IH1 _ _ _ _ H) as (s1 & g1 & H1 & Hp1 & Hb1).
    destruct (IH2 _ _ _ _ H1) as (s2 & g2 & H2 & Hp2 & Hb2).
    exists s2, g2. split; [exact H2|]. split; [auto|].
    intros n [Hn|Hn]%orb_true_iff; auto.
  - destruct (rmatch r1 s g k) eqn:E.
    + injection H as ->. destruct (IH1 _ _ _ _ E) as (s' & g' & Hk & Hp & Hb).
      exists s', g'. split; [exact Hk|]. split; [exact Hp|].
      intros n [Hn _]%andb_true_iff. auto.
    + destruct (IH2 _ _ _ _ H) as (s' & g' & Hk & Hp & Hb).
      exists s', g'. split; [exact Hk|]. split; [exact Hp|].
      intros n [_ Hn]%andb_true_iff. auto.
  - destruct (IH _ _ _ _ H) as (s' & g' & Hk & Hp & Hb).
    exists s', (<[i := consumed s s']> g'). split; [exact Hk|].
    assert (Hins : forall n, is_Some (g' !! n) ->
                             is_Some (<[i := consumed s s']> g' !! n)).
    { intros n Hn. destruct (decide (i = n)) as [->|Hne].
      - rewrite lookup_insert_eq. eauto.
      - rewrite lookup_insert_ne by exact Hne. exact Hn. }
    split; [auto|].
    intros n [Hn|Hn]%orb_true_iff; [|auto].
    apply Nat.eqb_eq in Hn as ->. rewrite lookup_insert_eq. eauto.
  - destruct (at_eol s); [|discriminate].
    exists s, g. split; [exact H|]. split; [auto|discriminate].
Qed.

Lemma re_match_binds (n : nat) (r : regex) (s : string) (m : groups) :
  binds n r = true -> re_match r s = Some m -> is_Some (m !! n).
Proof.
  intros Hb H. destruct (rmatch_inv _ _ _ _ _ H) as (s' & g' & Hk & _ & Hg).
  injection Hk as <-. auto.
Qed.

Lemma scan_patterns_total (response : string) (ps : list pattern_entry) :
  Forall (fun p => binds (entry_index p) (entry_regex p) = true /\
                   has_group (entry_index p) (entry_regex p) = true) ps ->
  exists acceptable, scan_patterns ps response = inr acceptable.
Proof.
  induction 1 as [|p ps [Hb Hg] _ IH]; [simpl; eauto|].
  assert (Hstep : forall r i,
             binds i r = true -> has_group i r = true ->
             exists a,
               match re_match r response with
               | Some matched =>
                   match group matched r i with
                   | inr text => inr (capitalize text)
                   | inl e => inl e
                   end
               | None => scan_patterns ps response
               end = inr a).
  { intros r i Hbi Hgi. destruct (re_match r response) as [m|] eqn:E; [|exact IH].
    unfold group. rewrite Hgi.
    destruct (re_match_binds _ _ _ _ Hbi E) as [text ->]. eauto. }
  destruct p as [r|r i]; simpl in *; apply Hstep; assumption.
Qed.

Lemma patterns_bind_their_group :
  Forall (fun p => binds (entry_index p) (entry_regex p) = true /\
                   has_group (entry_index p) (entry_regex p) = true) patterns.
Proof. repeat constructor. Qed.

(** [_parse_response] returns 0 or 1 on every response, and logs nothing or
    the one warning. *)
Lemma parse_response_total (response candidate_answer question : string) :
  exists j log,
    _parse_response response candidate_answer question = (inr j, log) /\
    (j = 0 \/ j = 1).
Proof.
  unfold _parse_response.
  destruct (startswith (lower response) "yes"); [eauto|].
  destruct (startswith (lower response) "no"); [eauto|].
  destruct (scan_patterns_total response _ patterns_bind_their_group)
    as [a ->].
  assert (Hb : forall s, Z.b2z (s =? "Yes")%string = 0
                         \/ Z.b2z (s =? "Yes")%string = 1).
  { intros s. destruct (s =? "Yes")%string; auto. }
  destruct (truthy a) eqn:E; cbv beta iota zeta;
    [rewrite E|destruct (truthy (scan_correct correct_patterns response))];
    eexists _, _; (split; [reflexivity|apply Hb]).
Qed.

(** ** The driver *)

Lemma py_round_div_bit (j : Z) : j = 0 \/ j = 1 -> py_round_div (sum [j]) 1 = j.
Proof. intros [->| ->]; vm_compute; reflexivity. Qed.

Lemma prepare_loop_Forall2 (template model : string)
    (ctx : option (gmap string string)) (candidates : list candidate_input) :
  forall examples,
    prepare_loop template model ctx candidates = inr examples ->
    Forall2 (fun c p => prepare_one template model ctx c = inr p)
      candidates examples.
Proof.
  induction candidates as [|c cs IH]; simpl; intros examples H.
  - injection H as <-. constructor.
  - destruct (prepare_one template model ctx c) as [e|p] eqn:Ep; [discriminate|].
    destruct (prepare_loop template model ctx cs) as [e|ps]; [discriminate|].
    injection H as <-. constructor; [exact Ep|]. apply IH. reflexivity.
Qed.

(** A chat built by [_prepare] ends with its user turn. *)
Lemma build_chat_ends_with_user (model p : string) :
  exists before u,
    build_chat model p = before ++ [{| role := "user"; content := u |}] /\
    (before = [] \/ exists i, before = [{| role := "system"; content := i |}]).
Proof.
  unfold build_chat.
  destruct (contains model "Mistral" || contains model "tulu-2");
    [|destruct (1 <? length (split p "###"))%nat;
      [destruct (truthy _)|]]; eauto 6.
Qed.

Lemma prompt_text_of_chat (before : list turn) (u : string) :
  prompt_text_of (Chat (before ++ [{| role := "user"; content := u |}]))
  = inr (PText u).
Proof.
  unfold prompt_text_of. rewrite map_app. simpl.
  rewrite last_last. reflexivity.
Qed.

(** What is posted for a prompt that [_prepare] built. *)
Lemma prepared_prompt_request (template model : string)
    (ctx : option (gmap string string)) (c : candidate_input) (p : prompt) :
  prepare_one template model ctx c = inr p ->
  exists text,
    prompt_text_of p = inr (PText text) /\
    request_of model p
      {| req_model := model; req_prompt := PText text; req_stream := false |}.
Proof.
  unfold prepare_one.
  destruct (fill_template template ctx c) as [e|filled]; [discriminate|].
  destruct (_is_conversational model); intros [= <-].
  - destruct (build_chat_ends_with_user model filled)
      as (before & u & -> & Hb).
    exists u. rewrite prompt_text_of_chat. split; [reflexivity|].
    repeat split. simpl. eauto.
  - exists filled. repeat split.
Qed.

Section DriverProperties.

Variable World : Type.
Variable ollama : World -> request -> (string + string) * World.
Variable model : string.

Lemma generate_run (payload : payload) (st : state World) :
  exists reply w,
    ollama (world st)
      {| req_model := model; req_prompt := payload; req_stream := false |}
    = (reply, w) /\
    fst (generate World ollama model payload st) = inr (response_text reply) /\
    world (snd (generate World ollama model payload st)) = w /\
    sent (snd (generate World ollama model payload st))
    = sent st ++ [{| req_model := model; req_prompt := payload;
                     req_stream := false |}].
Proof.
  unfold generate.
  destruct (ollama _ _) as [reply w]. exists reply, w.
  destruct reply; simpl; auto.
Qed.

(** The first loop posts one request per prompt, in order, and keeps the
    replies in the same order. *)
Lemma collect_responses_run (template : string)
    (ctx : option (gmap string string)) :
  forall candidates examples st,
    Forall2 (fun c p => prepare_one template model ctx c = inr p)
      candidates examples ->
    exists resps reqs st',
      collect_responses World ollama model examples st = (inr resps, st') /\
      sent st' = sent st ++ reqs /\
      Forall2 (request_of model) examples reqs /\
      replies ollama (world st) reqs resps (world st').
Proof.
  intros candidates examples st H. revert st.
  induction H as [|c p cs ps Hp _ IH]; intros st.
  - exists [], [], st. simpl. rewrite app_nil_r.
    repeat split; constructor.
  - destruct (prepared_prompt_request _ _ _ _ _ Hp) as (text & Ht & Hreq).
    destruct (generate_run (PText text) st) as (reply & w & Ho & Hr & Hw & Hs).
    simpl. unfold bind at 1. rewrite Ht. simpl. unfold bind at 1.
    destruct (generate World ollama model (PText text) st) as [r st1].
    simpl in Hr, Hw, Hs. subst r.
    destruct (IH st1) as (resps & reqs & st' & Hrun & Hsent & Hreqs & Hrep).
    unfold bind at 1. rewrite Hrun. simpl.
    exists (response_text reply :: resps),
      ({| req_model := model; req_prompt := PText text; req_stream := false |}
         :: reqs), st'.
    split; [reflexivity|]. split; [|split].
    + rewrite Hsent, Hs, <- app_assoc. reflexivity.
    + constructor; [exact Hreq|exact Hreqs].
    + econstructor; [exact Ho|]. rewrite <- Hw. exact Hrep.
Qed.

Lemma replies_length (w w' : World) (reqs : list request)
    (resps : list string) :
  replies ollama w reqs resps w' -> length resps = length reqs.
Proof. induction 1; simpl; congruence. Qed.

(** The second loop keeps the world and the requests, and gives, for each
    index, the judgment of the response at that index. *)
Lemma judge_loop_run (cands : list Candidate) (resps : list string) :
  length resps = length cands ->
  forall n a st,
    (a + n <= length cands)%nat ->
    exists outs st',
      judge_loop World (map CObj cands) resps (List.seq a n) st
      = (inr outs, st') /\
      world st' = world st /\ sent st' = sent st /\
      length outs = n /\
      forall k c,
        (k < n)%nat -> cands !! (a + k)%nat = Some c ->
        exists j resp,
          resps !! (a + k)%nat = Some resp /\
          outs !! k = Some (py_round_div (sum [j]) 1, resp, [j]) /\
          fst (_parse_response resp (answer c) (text (question c))) = inr j /\
          (j = 0 \/ j = 1).
Proof.
  intros Hlen n. induction n as [|n IH]; intros a st Ha.
  - exists [], st. simpl. repeat split. intros k c Hk. lia.
  - destruct (lookup_lt_is_Some_2 cands a) as [c Hc]; [lia|].
    destruct (lookup_lt_is_Some_2 resps a) as [resp Hr]; [lia|].
    destruct (parse_response_total resp (answer c) (text (question c)))
      as (j & lg & Hparse & Hj).
    set (st1 := {| world := world st; sent := sent st; log := log st ++ lg |}).
    destruct (IH (S a) st1) as (outs & st' & Hrun & Hw & Hs & Hl & Hout); [lia|].
    exists ((py_round_div (sum [j]) 1, resp, [j]) :: outs), st'.
    split; [|split; [exact Hw|split; [exact Hs|split; [simpl; lia|]]]].
    + cbn [List.seq judge_loop]. unfold bind at 1. rewrite Hr. simpl.
      unfold bind at 1. rewrite list_lookup_fmap, Hc. simpl.
      unfold bind at 1. unfold parse_logged. rewrite Hparse.
      unfold bind at 1. simpl. fold st1.
      unfold bind at 1. simpl.
      unfold bind at 1. rewrite Hrun. reflexivity.
    + intros k c' Hk Hc'. destruct k as [|k].
      * rewrite Nat.add_0_r in *. rewrite Hc in Hc'. injection Hc' as <-.
        exists j, resp. rewrite Hparse. auto.
      * replace (a + S k)%nat with (S a + k)%nat in * by lia.
        destruct (Hout k c') as (j' & resp' & ?); [lia|exact Hc'|].
        exists j', resp'. simpl. assumption.
Qed.

(** The second loop posts nothing, whatever it returns or raises. *)
Lemma judge_loop_sent (candidates : list candidate_input)
    (resps : list string) :
  forall indices st,
    sent (snd (judge_loop World candidates resps indices st)) = sent st.
Proof.
  induction indices as [|index indices IH]; intros st; [reflexivity|].
  cbn [judge_loop]. unfold bind at 1.
  destruct (resps !! index) as [resp|]; [|reflexivity]. simpl.
  unfold bind at 1.
  destruct (candidates !! index) as [[c|a ca q]|]; [|reflexivity..]. simpl.
  unfold bind at 1. unfold parse_logged.
  destruct (_parse_response _ _ _) as [[e|j] lg]; [reflexivity|].
  unfold bind at 1. simpl. unfold bind at 1. simpl. unfold bind at 1.
  specialize (IH {| world := world st; sent := sent st;
                    log := log st ++ lg |}).
  destruct (judge_loop World candidates resps indices _) as [[e|outs] st'];
    exact IH.
Qed.

End DriverProperties.

(** C9: when the prompts of the candidates can be built, [llm_eval] returns
    one output per candidate, in the order of the candidates: the i-th output
    holds the reply to the request posted for the i-th prompt (the empty text
    when that request failed), the one judgment bit parsed from it, and the
    rounded average of the bits, which is that bit. *)
Theorem llm_eval_index_aligned (World : Type)
    (ollama : World -> request -> (string + string) * World)
    (model : string) (cands : list Candidate) (prompt_file : string)
    (ctx : option (gmap string string)) (st : state World)
    (examples : list prompt) :
  _prepare (map CObj cands) prompt_file model ctx = inr examples ->
  exists outputs resps reqs st',
    llm_eval World ollama model (map CObj cands) (Some prompt_file) ctx st
    = (inr outputs, st') /\
    length outputs = length cands /\
    Forall2 (fun c p =>
               prepare_one (strip prompt_file) model ctx (CObj c) = inr p)
      cands examples /\
    Forall2 (request_of model) examples reqs /\
    replies ollama (world st) reqs resps (world st') /\
    forall i c,
      cands !! i = Some c ->
      exists j resp,
        resps !! i = Some resp /\
        outputs !! i = Some (j, resp, [j]) /\
        fst (_parse_response resp (answer c) (text (question c))) = inr j /\
        (j = 0 \/ j = 1) /\
        j = py_round_div (sum [j]) (Z.of_nat (length [j])).
Proof.
  intros Hprep. unfold llm_eval. unfold bind at 1. rewrite Hprep. simpl.
  apply prepare_loop_Forall2 in Hprep.
  destruct (collect_responses_run World ollama model _ _ _ _ st Hprep)
    as (resps & reqs & st1 & Hrun & Hsent & Hreqs & Hrep).
  unfold bind at 1. rewrite Hrun.
  assert (Hlen : length resps = length cands).
  { rewrite (replies_length _ _ _ _ _ _ Hrep).
    rewrite <- (Forall2_length _ _ _ Hreqs), <- (Forall2_length _ _ _ Hprep).
    apply length_map. }
  destruct (judge_loop_run World cands resps Hlen (length cands) 0%nat st1)
    as (outs & st' & Hj & Hw & _ & Hl & Hout); [lia|].
  rewrite length_map, Hj. exists outs, resps, reqs, st'.
  split; [reflexivity|]. split; [exact Hl|]. split.
  { apply Forall2_fmap_l in Hprep. exact Hprep. }
  split; [exact Hreqs|]. split; [rewrite Hw; exact Hrep|].
  intros i c Hc.
  destruct (Hout i c) as (j & resp & Hr & Ho & Hp & Hb).
  { apply lookup_lt_Some in Hc. exact Hc. }
  { exact Hc. }
  exists j, resp. change (0 + i)%nat with i in Hr.
  rewrite (py_round_div_bit j Hb) in Ho.
  split; [exact Hr|]. split; [exact Ho|]. split; [exact Hp|].
  split; [exact Hb|]. symmetry. apply py_round_div_bit, Hb.
Qed.

(** C10: [llm_eval] posts exactly one request per candidate; the request for
    a chat carries the content of its final user turn alone, the system turn
    that may precede it is not sent, and nothing else is posted. *)
Theorem llm_eval_sends_final_user_turn (World : Type)
    (ollama : World -> request -> (string + string) * World)
    (model : string) (candidates : list candidate_input)
    (prompt_file : string) (ctx : option (gmap string string))
    (st : state World) (examples : list prompt) :
  _prepare candidates prompt_file model ctx = inr examples ->
  exists reqs,
    sent (snd (llm_eval World ollama model candidates (Some prompt_file) ctx
                 st))
    = sent st ++ reqs /\
    length reqs = length candidates /\
    Forall2 (request_of model) examples reqs.
Proof.
  intros Hprep. unfold llm_eval. unfold bind at 1. rewrite Hprep. simpl.
  apply prepare_loop_Forall2 in Hprep.
  destruct (collect_responses_run World ollama model _ _ _ _ st Hprep)
    as (resps & reqs & st1 & Hrun & Hsent & Hreqs & _).
  unfold bind at 1. rewrite Hrun. rewrite judge_loop_sent.
  exists reqs. split; [exact Hsent|]. split; [|exact Hreqs].
  rewrite <- (Forall2_length _ _ _ Hreqs). symmetry.
  apply (Forall2_length _ _ _ Hprep).
Qed.

(** ** The second-pass builder *)

(** On chats that do not start with a system turn, and one response text per
    chat, the builder gives the chats the specification describes. *)
Lemma prepare_second_pass_without_system (chats : list (list turn)) :
  forall responses : list string,
    Forall (fun chat => drop_system chat = chat) chats ->
    length chats = length responses ->
    _prepare_second_pass chats (map RespStr responses)
    = zip_with expected_second_pass chats responses.
Proof.
  induction chats as [|chat chats IH]; intros [|r rs] Hall Hlen;
    try discriminate; [reflexivity|].
  inversion Hall as [|? ? Hchat Hrest]; subst.
  simpl. rewrite (IH rs Hrest) by (simpl in Hlen; lia).
  f_equal. unfold expected_second_pass. rewrite Hchat.
  destruct chat as [|t rest]; [reflexivity|].
  simpl in Hchat. destruct (String.eqb (role t) "system"); [|reflexivity].
  exfalso. apply (f_equal (@length turn)) in Hchat. simpl in Hchat. lia.
Qed.

(** C3: the example of the specification holds: for the chat of one user turn
    "X" and the response "Yes, because ### extra" the assistant content is
    "Yes, because" and the follow-up turn is appended.  For a chat that starts
    with a system turn the builder appends the rest of the chat as ONE
    element, a list inside the list, instead of its turns: the result is not
    the chat the claim describes. *)
Theorem prepare_second_pass_nests_history :
  _prepare_second_pass [[user_turn "X"]] [RespStr "Yes, because ### extra"]
  = [[HTurn (user_turn "X"); HTurn (assistant_turn "Yes, because");
      HTurn (user_turn FOLLOW_UP)]] /\
  _prepare_second_pass [[system_turn "S"; user_turn "X"]] [RespStr "Yes"]
  = [[HList [user_turn "X"]; HTurn (assistant_turn "Yes");
      HTurn (user_turn FOLLOW_UP)]] /\
  expected_second_pass [system_turn "S"; user_turn "X"] "Yes"
  = [HTurn (user_turn "X"); HTurn (assistant_turn "Yes");
     HTurn (user_turn FOLLOW_UP)] /\
  _prepare_second_pass [[system_turn "S"; user_turn "X"]] [RespStr "Yes"]
  <> [expected_second_pass [system_turn "S"; user_turn "X"] "Yes"].
Proof.
  split; [vm_compute; reflexivity|]. split; [vm_compute; reflexivity|].
  split; [vm_compute; reflexivity|]. vm_compute. discriminate.
Qed.

(** ** Splitting and joining *)

Lemma startswith_inv (p : string) :
  forall s, startswith s p = true -> exists rest, s = p +:+ rest.
Proof.
  induction p as [|x p IH]; intros s H; [exists s; reflexivity|].
  destruct s as [|c s]; [discriminate|]. simpl in H.
  apply andb_true_iff in H as [Hc H]. apply Ascii.eqb_eq in Hc as ->.
  destruct (IH _ H) as [rest ->]. exists rest. reflexivity.
Qed.

Lemma slength_app (a b : string) :
  String.length (a +:+ b) = (String.length a + String.length b)%nat.
Proof.
  induction a as [|x a IH]; [reflexivity|].
  rewrite sapp_cons. simpl. rewrite IH. reflexivity.
Qed.

Lemma rev_app_app (a b t : string) :
  String.rev_app a b +:+ t = String.rev_app a (b +:+ t).
Proof.
  revert b. induction a as [|x a IH]; intros b; [reflexivity|].
  simpl. rewrite IH. reflexivity.
Qed.

Lemma rev_cons_app (c : ascii) (cur s : string) :
  String.rev (String c cur) +:+ s = String.rev cur +:+ String c s.
Proof. unfold String.rev. simpl. rewrite !rev_app_app. reflexivity. Qed.

Lemma split_go_skip (sep : string) (pre : string) :
  forall cur rest,
    split_go sep (String.length pre) cur (pre +:+ rest)
    = split_go sep 0 cur rest.
Proof.
  induction pre as [|c pre IH]; intros cur rest; [reflexivity|].
  rewrite sapp_cons. simpl. apply IH.
Qed.

Lemma split_go_nonempty (sep : string) (skip : nat) (cur s : string) :
  split_go sep skip cur s <> [].
Proof.
  revert skip cur. induction s as [|c s IH]; intros skip cur; [done|].
  cbn [split_go]. destruct skip; [|apply IH].
  destruct (startswith (String c s) sep); [done|apply IH].
Qed.

Lemma join_cons (sep x : string) (l : list string) :
  l <> [] -> join sep (x :: l) = x +:+ sep +:+ join sep l.
Proof. destruct l; [congruence|reflexivity]. Qed.

Lemma join_split_go (sep : string) :
  sep <> "" ->
  forall n s cur,
    (String.length s <= n)%nat ->
    join sep (split_go sep 0 cur s) = String.rev cur +:+ s.
Proof.
  intros Hsep. destruct sep as [|x sep']; [congruence|].
  induction n as [|n IH]; intros s cur Hn.
  - destruct s; [|simpl in Hn; lia]. simpl. rewrite sapp_nil_r. reflexivity.
  - destruct s as [|c s]; [simpl; rewrite sapp_nil_r; reflexivity|].
    cbn [split_go].
    destruct (startswith (String c s) (String x sep')) eqn:E.
    + apply startswith_inv in E as [rest E].
      rewrite sapp_cons in E. injection E as -> ->.
      replace (String.length (String x sep') - 1)%nat
        with (String.length sep') by (simpl; lia).
      rewrite split_go_skip, join_cons by apply split_go_nonempty.
      rewrite IH.
      * rewrite sapp_nil_l, sapp_cons. reflexivity.
      * simpl in Hn. rewrite slength_app in Hn. lia.
    + rewrite IH by (simpl in Hn; lia). apply rev_cons_app.
Qed.

(** Joining the segments of a split gives the text back. *)
Lemma join_split (s sep : string) : sep <> "" -> join sep (split s sep) = s.
Proof.
  intros Hsep. unfold split.
  rewrite (join_split_go sep Hsep (String.length s)) by lia.
  reflexivity.
Qed.

Lemma join_removelast (sep : string) (l : list string) :
  (1 < length l)%nat ->
  join sep l = join sep (removelast l) +:+ sep +:+ List.last l "".
Proof.
  induction l as [|x l IH]; [simpl; lia|].
  destruct l as [|y l]; [simpl; lia|]. intros _.
  destruct l as [|z l]; [reflexivity|].
  rewrite join_cons by discriminate.
  rewrite IH by (simpl; lia).
  change (removelast (x :: y :: z :: l)) with (x :: removelast (y :: z :: l)).
  change (List.last (x :: y :: z :: l) "") with (List.last (y :: z :: l) "").
  rewrite join_cons by (simpl; destruct l; discriminate).
  rewrite !sapp_assoc. reflexivity.
Qed.

(** ** The prompt builder: chats *)

(** C4, as stated, fails: with the template "###{q}" the split yields two
    segments, the text before the delimiter is empty, and no system turn is
    made; with two delimiters the system turn keeps the delimiter between the
    first segments, it is not their concatenation. *)
Lemma prepare_split_counterexample :
  _is_conversational llama = true /\
  special_family llama = false /\
  fill_template "###{q}" None (CObj president)
  = inr "###who is the president?" /\
  split "###who is the president?" "###" = [""; "who is the president?"] /\
  _prepare [CObj president] "###{q}" llama None
  = inr [Chat [user_turn "who is the president?"]] /\
  _prepare [CObj president] "###{q}" llama None
  <> inr [Chat (claimed_split_chat "###who is the president?")] /\
  fill_template "a###b###{q}" None (CObj president)
  = inr "a###b###who is the president?" /\
  _prepare [CObj president] "a###b###{q}" llama None
  = inr [Chat [system_turn "a###b"; user_turn "who is the president?"]] /\
  _prepare [CObj president] "a###b###{q}" llama None
  <> inr [Chat (claimed_split_chat "a###b###who is the president?")].
Proof.
  repeat split; try (vm_compute; reflexivity); vm_compute; discriminate.
Qed.

(** C4, amended: for a conversational model outside the two families, the
    prompt is split at "###"; with more than one segment, the segments before
    the last joined again with "###" are the text before the last delimiter,
    and when that text is not empty it is the system turn, followed by the
    user turn with the stripped last segment; when it is empty, or there is
    one segment, the chat is the user turn alone.  For a conversational model
    of the two families the chat is one user turn with the whole prompt. *)
Theorem prepare_chat_split (template model : string)
    (ctx : option (gmap string string)) (candidate : candidate_input)
    (prompt : string) :
  fill_template template ctx candidate = inr prompt ->
  _is_conversational model = true ->
  let sections := split prompt "###" in
  let instruction := join "###" (removelast sections) in
  let user := user_turn (strip (List.last sections "")) in
  (special_family model = false ->
   ((1 < length sections)%nat ->
    prompt = instruction +:+ "###" +:+ List.last sections "") /\
   ((1 < length sections)%nat -> instruction <> "" ->
    prepare_one template model ctx candidate
    = inr (Chat [system_turn instruction; user])) /\
   (length sections = 1%nat \/ instruction = "" ->
    prepare_one template model ctx candidate = inr (Chat [user]))) /\
  (special_family model = true ->
   prepare_one template model ctx candidate
   = inr (Chat [user_turn prompt])).
Proof.
  intros Hfill Hconv sections instruction user.
  unfold prepare_one. rewrite Hfill, Hconv. unfold build_chat.
  fold (special_family model). fold sections. fold instruction.
  split; intros Hfam; rewrite Hfam; [|reflexivity].
  split; [|split].
  - intros Hlen. unfold instruction.
    rewrite <- join_removelast by exact Hlen.
    symmetry. apply join_split. discriminate.
  - intros Hlen Hne. apply Nat.ltb_lt in Hlen. rewrite Hlen.
    unfold truthy. apply String.eqb_neq in Hne. rewrite Hne. reflexivity.
  - intros [Hlen|He].
    + rewrite Hlen. reflexivity.
    + destruct (1 <? length sections)%nat; [|reflexivity].
      rewrite He. reflexivity.
Qed.

Lemma prepare_chat_split_witness :
  prepare_one "Judge the answer.###{q}" llama None (CObj president)
  = inr (Chat [system_turn "Judge the answer.";
               user_turn "who is the president?"]) /\
  prepare_one "###{q}" llama None (CObj president)
  = inr (Chat [user_turn "who is the president?"]) /\
  prepare_one "x###{q}" "allenai/tulu-2-7b" None (CObj president)
  = inr (Chat [user_turn "x###who is the president?"]).
Proof.
  split; [|split].
  - assert (Hf : fill_template "Judge the answer.###{q}" None (CObj president)
                 = inr "Judge the answer.###who is the president?")
      by (vm_compute; reflexivity).
    assert (Hc : _is_conversational llama = true) by (vm_compute; reflexivity).
    destruct (prepare_chat_split _ _ _ _ _ Hf Hc) as [Hsplit _].
    destruct Hsplit as (_ & Hsys & _); [vm_compute; reflexivity|].
    apply Hsys; [vm_compute; lia|vm_compute; discriminate].
  - assert (Hf : fill_template "###{q}" None (CObj president)
                 = inr "###who is the president?")
      by (vm_compute; reflexivity).
    assert (Hc : _is_conversational llama = true) by (vm_compute; reflexivity).
    destruct (prepare_chat_split _ _ _ _ _ Hf Hc) as [Hsplit _].
    destruct Hsplit as (_ & _ & Huser); [vm_compute; reflexivity|].
    apply Huser. right. vm_compute. reflexivity.
  - assert (Hf : fill_template "x###{q}" None (CObj president)
                 = inr "x###who is the president?")
      by (vm_compute; reflexivity).
    assert (Hc : _is_conversational "allenai/tulu-2-7b" = true)
      by (vm_compute; reflexivity).
    destruct (prepare_chat_split _ _ _ _ _ Hf Hc) as [_ Hfam].
    apply Hfam. vm_compute. reflexivity.
Defined.

(** ** Witnesses of the driver theorems *)

Lemma llm_eval_index_aligned_witness :
  let cands := [president; president] in
  let examples :=
    [Chat [system_turn "Judge."; user_turn "who is the president? Biden"];
     Chat [system_turn "Judge."; user_turn "who is the president? Biden"]] in
  let st := start_state [inr "Yes, it matches"; inl "timeout"] in
  _prepare (map CObj cands) "Judge.###{q} {candidate_answer}" llama None
  = inr examples /\
  exists outputs resps reqs st',
    llm_eval _ scripted llama (map CObj cands)
      (Some "Judge.###{q} {candidate_answer}") None st
    = (inr outputs, st') /\
    length outputs = length cands /\
    Forall2 (fun c p =>
               prepare_one (strip "Judge.###{q} {candidate_answer}") llama
                 None (CObj c) = inr p)
      cands examples /\
    Forall2 (request_of llama) examples reqs /\
    replies scripted (world st) reqs resps (world st') /\
    forall i c,
      cands !! i = Some c ->
      exists j resp,
        resps !! i = Some resp /\
        outputs !! i = Some (j, resp, [j]) /\
        fst (_parse_response resp (answer c) (text (question c))) = inr j /\
        (j = 0 \/ j = 1) /\
        j = py_round_div (sum [j]) (Z.of_nat (length [j])).
Proof.
  intros cands examples st. split; [vm_compute; reflexivity|].
  apply llm_eval_index_aligned. vm_compute. reflexivity.
Defined.

Lemma llm_eval_sends_final_user_turn_witness :
  let examples :=
    [Chat [system_turn "Judge."; user_turn "who is the president? Biden"]] in
  let st := start_state [inr "Yes, it matches"] in
  _prepare [CObj president] "Judge.###{q} {candidate_answer}" llama None
  = inr examples /\
  exists reqs,
    sent (snd (llm_eval _ scripted llama [CObj president]
                 (Some "Judge.###{q} {candidate_answer}") None st))
    = sent st ++ reqs /\
    length reqs = length [CObj president] /\
    Forall2 (request_of llama) examples reqs.
Proof.
  intros examples st. split; [vm_compute; reflexivity|].
  apply llm_eval_sends_final_user_turn. vm_compute. reflexivity.
Defined.

(** ** The prompt builder: filling the template *)

Lemma emit_emit (a b : string) (r : exn + string) :
  emit a (emit b r) = emit (a +:+ b) r.
Proof. destruct r; simpl; [reflexivity|]. rewrite sapp_assoc. reflexivity. Qed.

(** Literal text is copied. *)
Lemma format_go_literal (kwargs : gmap string pyval) (pre s : string) :
  braces_free pre = true ->
  format_go kwargs FText (pre +:+ s) = emit pre (format_go kwargs FText s).
Proof.
  induction pre as [|c pre IH]; intros H.
  - rewrite sapp_nil_l. destruct (format_go kwargs FText s); reflexivity.
  - simpl in H. apply andb_true_iff in H as [[H1 H2]%andb_true_iff H].
    rewrite sapp_cons. cbn [format_go].
    apply negb_true_iff in H1, H2. rewrite H1, H2, (IH H), emit_emit.
    reflexivity.
Qed.

Lemma format_go_in_field (kwargs : gmap string pyval) (name post : string) :
  plain_name name = true ->
  forall f,
    format_go kwargs (FField f) (name +:+ String "}" post)
    = match format_field kwargs (String.rev f +:+ name) with
      | inl e => inl e
      | inr v => emit v (format_go kwargs FText post)
      end.
Proof.
  induction name as [|c name IH]; intros H f.
  - rewrite sapp_nil_l, sapp_nil_r. reflexivity.
  - simpl in H. apply andb_true_iff in H as [[H1 H2]%andb_true_iff H].
    apply negb_true_iff in H1, H2.
    rewrite sapp_cons. cbn [format_go]. rewrite H1, H2, (IH H).
    rewrite rev_cons_app. reflexivity.
Qed.

(** A replacement field with a plain name is replaced by the text of the
    keyword argument of that name. *)
Lemma format_go_field (kwargs : gmap string pyval) (name post : string) :
  plain_name name = true ->
  format_go kwargs FText (String "{" (name +:+ String "}" post))
  = match format_field kwargs name with
    | inl e => inl e
    | inr v => emit v (format_go kwargs FText post)
    end.
Proof.
  intros H. cbn [format_go]. change (Ascii.eqb "{" "{") with true. cbv iota.
  destruct name as [|c name]; [reflexivity|].
  pose proof H as H'. simpl in H'.
  apply andb_true_iff in H' as [[H1 H2]%andb_true_iff H'].
  apply negb_true_iff in H1, H2.
  assert (Hc : Ascii.eqb c "{" = false).
  { unfold field_special in H2. simpl in H2.
    apply orb_false_elim in H2 as [H2 _]. exact H2. }
  rewrite sapp_cons. cbn [format_go]. rewrite Hc, H1, H2.
  apply (format_go_in_field kwargs name post H' (String c "")).
Qed.

(** [format] reads the keyword arguments through their texts only. *)
Lemma format_go_ext (kw1 kw2 : gmap string pyval) :
  (forall k, str_of <$> kw1 !! k = str_of <$> kw2 !! k) ->
  forall s st, format_go kw1 st s = format_go kw2 st s.
Proof.
  intros Hkw.
  assert (Hfield : forall n, format_field kw1 n = format_field kw2 n).
  { intros n. unfold format_field. destruct (all_digits n); [reflexivity|].
    specialize (Hkw n).
    destruct (kw1 !! n), (kw2 !! n); simpl in Hkw; congruence. }
  induction s as [|c s IH]; intros st; [reflexivity|].
  cbn [format_go]. destruct st; rewrite ?Hfield, ?IH; reflexivity.
Qed.

(** A [KeyError] names a key that is not among the keyword arguments. *)
Lemma format_go_key_error (kwargs : gmap string pyval) (key : string) :
  forall s st, format_go kwargs st s = inl (KeyError key) ->
               kwargs !! key = None.
Proof.
  assert (Hfield : forall n, format_field kwargs n = inl (KeyError key) ->
                             kwargs !! key = None).
  { intros n. unfold format_field. destruct (all_digits n).
    - destruct (_ <=? _)%nat; discriminate.
    - destruct (kwargs !! n) eqn:E; [discriminate|]. intros [= <-]. exact E. }
  assert (Hemit : forall v r, emit v r = inl (KeyError key) ->
                              r = inl (KeyError key)).
  { intros v [e|t]; simpl; [auto|discriminate]. }
  induction s as [|c s IH]; intros st H.
  - destruct st; discriminate.
  - cbn [format_go] in H.
    assert (Hin : forall f,
               (if Ascii.eqb c "}" then
                  match format_field kwargs (String.rev f) with
                  | inl e => inl e
                  | inr v => emit v (format_go kwargs FText s)
                  end
                else if field_special c then inl Unsupported
                     else format_go kwargs (FField (String c f)) s)
               = inl (KeyError key) -> kwargs !! key = None).
    { intros f Hf. destruct (Ascii.eqb c "}").
      - destruct (format_field kwargs (String.rev f)) eqn:Ef.
        + injection Hf as ->. eapply Hfield, Ef.
        + eapply IH, Hemit, Hf.
      - destruct (field_special c); [discriminate|]. eapply IH, Hf. }
    destruct st.
    + destruct (Ascii.eqb c "{"); [eapply IH, H|].
      destruct (Ascii.eqb c "}"); [eapply IH, H|]. eapply IH, Hemit, H.
    + destruct (Ascii.eqb c "{"); [eapply IH, Hemit, H|]. eapply Hin, H.
    + destruct (Ascii.eqb c "}"); [eapply IH, Hemit, H|discriminate].
    + eapply Hin, H.
Qed.

(** C5, as stated, fails: with a context file that has no passage for the
    question, under neither key, and a template that refers to the passage,
    the prompt is built, with the text "None" in the place of the passage. *)
Lemma missing_passage_counterexample :
  other_context <> ∅ /\
  other_context !! "who is the president?" = None /\
  other_context !! "who is the president" = None /\
  _prepare [CObj president] "{q} Context: {passage}" "google/flan-t5-xl"
    (Some other_context)
  = inr [Flat "who is the president? Context: None"] /\
  forall e,
    _prepare [CObj president] "{q} Context: {passage}" "google/flan-t5-xl"
      (Some other_context)
    <> inl e.
Proof.
  split; [apply insert_non_empty|].
  split; [vm_compute; reflexivity|]. split; [vm_compute; reflexivity|].
  split; [vm_compute; reflexivity|]. intros e. vm_compute. discriminate.
Qed.

(** C5, amended: when a context file that is not empty has no passage for
    the question, under the question itself and under the question without
    its last character, and the template refers to the passage by the plain
    field [{passage}], the missing passage does not make the builder fail:
    the field is filled with the text "None", no [KeyError] names the
    passage, and the prompt is built whenever the rest of the template is
    filled.  (Within the modelled fragment of [format] the template is filled
    as if the passage were the text "None".) *)
Theorem fill_template_missing_passage (template : string)
    (ctx : gmap string string) (candidate : candidate_input) :
  ctx <> ∅ ->
  ctx !! lookup_key candidate = None ->
  ctx !! drop_last (lookup_key candidate) = None ->
  (fill_template template (Some ctx) candidate <> inl Unsupported ->
   fill_template template (Some ctx) candidate
   = format template (passage_kwargs candidate (VStr "None"))) /\
  fill_template template (Some ctx) candidate <> inl (KeyError "passage") /\
  (forall pre post t,
     braces_free pre = true ->
     template = pre +:+ "{passage}" +:+ post ->
     format post (passage_kwargs candidate (VStr "None")) = inr t ->
     fill_template template (Some ctx) candidate
     = inr (pre +:+ "None" +:+ t)) /\
  (forall pre post,
     braces_free pre = true -> braces_free post = true ->
     template = pre +:+ "{passage}" +:+ post ->
     fill_template template (Some ctx) candidate
     = inr (pre +:+ "None" +:+ post)).
Proof.
  unfold fill_template, passage_kwargs, lookup_key.
  destruct (candidate_fields candidate) as [[gold ca] q]. simpl.
  intros Hne H1 H2. rewrite bool_decide_true by exact Hne.
  unfold lookup_passage. rewrite H1, H2.
  set (base := base_kwargs (normalize_question q) (render_gold gold) ca).
  assert (Heq : format template (<["passage" := VNone]> base)
                = format template (<["passage" := VStr "None"]> base)).
  { apply format_go_ext. intros k.
    destruct (decide ("passage" = k)) as [<-|Hk].
    - rewrite !lookup_insert_eq. reflexivity.
    - rewrite !lookup_insert_ne by exact Hk. reflexivity. }
  rewrite Heq.
  assert (Hfield : forall pre post,
             braces_free pre = true ->
             format (pre +:+ "{passage}" +:+ post)
               (<["passage" := VStr "None"]> base)
             = emit (pre +:+ "None")
                 (format post (<["passage" := VStr "None"]> base))).
  { intros pre post Hpre. unfold format.
    rewrite (format_go_literal _ _ _ Hpre).
    change ("{passage}" +:+ post)
      with (String "{" ("passage" +:+ String "}" post)).
    rewrite format_go_field by reflexivity.
    unfold format_field. change (all_digits "passage") with false. cbv iota.
    rewrite lookup_insert_eq. simpl str_of. apply emit_emit. }
  split; [intros _; reflexivity|]. split; [|split].
  - intros H. apply format_go_key_error in H.
    rewrite lookup_insert_eq in H. discriminate.
  - intros pre post t Hpre -> Hpost.
    rewrite (Hfield pre post Hpre), Hpost. simpl.
    rewrite sapp_assoc. reflexivity.
  - intros pre post Hpre Hpost ->.
    rewrite (Hfield pre post Hpre). unfold format.
    rewrite <- (sapp_nil_r post) at 1.
    rewrite (format_go_literal _ _ _ Hpost). simpl.
    rewrite sapp_nil_r, sapp_assoc. reflexivity.
Qed.

Lemma fill_template_missing_passage_witness :
  other_context <> ∅ /\
  other_context !! lookup_key (CObj president) = None /\
  other_context !! drop_last (lookup_key (CObj president)) = None /\
  fill_template "Context: {passage} Q: {q}" (Some other_context)
    (CObj president)
  = inr "Context: None Q: who is the president?" /\
  fill_template "Context: {passage}." (Some other_context) (CObj president)
  = inr "Context: None.".
Proof.
  assert (H0 : other_context <> ∅) by apply insert_non_empty.
  assert (H1 : other_context !! lookup_key (CObj president) = None)
    by (vm_compute; reflexivity).
  assert (H2 : other_context !! drop_last (lookup_key (CObj president)) = None)
    by (vm_compute; reflexivity).
  split; [exact H0|]. split; [exact H1|]. split; [exact H2|]. split.
  - destruct (fill_template_missing_passage "Context: {passage} Q: {q}"
                other_context (CObj president) H0 H1 H2) as (_ & _ & H & _).
    apply (H "Context: " " Q: {q}" " Q: who is the president?" eq_refl
             eq_refl).
    vm_compute. reflexivity.
  - destruct (fill_template_missing_passage "Context: {passage}."
                other_context (CObj president) H0 H1 H2) as (_ & _ & _ & H).
    apply (H "Context: " "." eq_refl eq_refl eq_refl).
Defined.

Lemma endswith_char_spec (s : string) :
  endswith_char s "?" = true <-> ends_with_question_mark s.
Proof.
  split.
  - induction s as [|c s IH]; [discriminate|]. simpl.
    destruct s as [|c' s].
    + intros ->%Ascii.eqb_eq. exists "". reflexivity.
    + intros [t Ht]%IH. exists (String c t). rewrite sapp_cons, <- Ht.
      reflexivity.
  - intros [t ->]. induction t as [|c t IH]; [reflexivity|].
    rewrite sapp_cons. simpl. destruct (t +:+ "?") eqn:E; [|exact IH].
    destruct t; discriminate.
Qed.

Lemma render_gold_quoted (gold_answers : list string) :
  render_gold gold_answers = quoted_list gold_answers.
Proof.
  unfold render_gold.
  induction gold_answers as [|a rest IH]; [reflexivity|].
  destruct rest as [|b rest].
  - simpl. rewrite !sapp_cons, sapp_nil_l. reflexivity.
  - change (map ?f (a :: b :: rest)) with (f a :: map f (b :: rest)).
    rewrite join_cons by discriminate. rewrite IH.
    cbn [quoted_list]. rewrite !sapp_cons, !sapp_assoc, !sapp_cons.
    reflexivity.
Qed.

(** C6: for a model that is not conversational and the template of the
    example, the prompt is the template with the question, ended by "?" when
    it does not end with it already, the gold answers between double quotes
    and separated by a comma and a space, in their order, and the candidate
    answer; for the question "who is the president", the gold answer
    "Joe Biden" and the candidate "Biden" it is the prompt of the example. *)
Theorem prepare_example_template (model question_text candidate_answer : string)
    (gold_answers : list string) :
  _is_conversational model = false ->
  (exists q,
     (ends_with_question_mark question_text -> q = question_text) /\
     (~ ends_with_question_mark question_text -> q = question_text +:+ "?") /\
     (forall template,
        fill_template template None
          (CObj {| question := {| text := question_text;
                                  answers := gold_answers |};
                   answer := candidate_answer |})
        = format template
            (base_kwargs q (quoted_list gold_answers) candidate_answer)) /\
     _prepare
       [CObj {| question := {| text := question_text; answers := gold_answers |};
                answer := candidate_answer |}]
       example_template model None
     = inr [Flat ("Q: " +:+ q
                  +:+ String nl ("Gold: " +:+ quoted_list gold_answers)
                  +:+ String nl ("Candidate: " +:+ candidate_answer))]) /\
  _prepare [CObj president] example_template model None
  = inr [Flat example_prompt].
Proof.
  intros Hconv.
  assert (Hfill : forall q g ca,
             format (strip example_template) (base_kwargs q g ca)
             = inr ("Q: " +:+ q +:+ String nl ("Gold: " +:+ g)
                    +:+ String nl ("Candidate: " +:+ ca))).
  { intros q g ca. rewrite <- (sapp_nil_r ca) at 2.
    vm_compute. reflexivity. }
  split.
  - exists (normalize_question question_text). unfold normalize_question.
    split; [|split; [|split]].
    + intros H%endswith_char_spec. rewrite H. reflexivity.
    + intros H. destruct (endswith_char question_text "?") eqn:E; [|reflexivity].
      apply endswith_char_spec in E. contradiction.
    + intros template. unfold fill_template.
      cbn [candidate_fields question answers answer text].
      rewrite render_gold_quoted. reflexivity.
    + unfold _prepare, prepare_loop, prepare_one, fill_template.
      cbn [candidate_fields question answers answer text].
      rewrite Hfill, Hconv, render_gold_quoted. reflexivity.
  - unfold _prepare, prepare_loop, prepare_one, fill_template.
    cbn [candidate_fields]. rewrite Hfill, Hconv. vm_compute. reflexivity.
Qed.

Lemma prepare_example_template_witness :
  _is_conversational "google/flan-t5-xl" = false /\
  _prepare [CObj president] example_template "google/flan-t5-xl" None
  = inr [Flat example_prompt].
Proof.
  assert (H : _is_conversational "google/flan-t5-xl" = false)
    by (vm_compute; reflexivity).
  split; [exact H|].
  exact (proj2 (prepare_example_template "google/flan-t5-xl"
                  "who is the president" "Biden" ["Joe Biden"] H)).
Defined.

(** * Further properties of the code *)

(** ** The parser: the token, the warning, the letter case *)

Lemma rmatch_lit_inv (L : string) :
  forall s g k m,
    rmatch (lit L) s g k = Some m ->
    exists mid s', s = mid +:+ s' /\ lower mid = lower L /\ k s' g = Some m.
Proof.
  induction L as [|p L IH]; intros s g k m H.
  - exists "", s. auto.
  - simpl in H. destruct s as [|c s]; [discriminate|].
    unfold char_eq_ci in H.
    destruct (Ascii.eqb_spec (lower_char c) (lower_char p)) as [Hc|];
      [|discriminate].
    destruct (IH _ _ _ _ H) as (mid & s' & -> & Hm & Hk).
    exists (String c mid), s'. simpl. rewrite Hc, Hm. auto.
Qed.

Lemma take_app_length (mid s' : string) :
  PyStr.take (String.length mid) (mid +:+ s') = mid.
Proof.
  induction mid as [|c mid IH]; [destruct s'; reflexivity|].
  rewrite sapp_cons. simpl. rewrite IH. reflexivity.
Qed.

Lemma consumed_app (mid s' : string) : consumed (mid +:+ s') s' = mid.
Proof.
  unfold consumed. rewrite slength_app.
  replace (String.length mid + String.length s' - String.length s')%nat
    with (String.length mid) by lia.
  apply take_app_length.
Qed.

Lemma yes_no_inv (n : nat) (s : string) (g : groups)
    (k : string -> groups -> option groups) (m : groups) :
  rmatch (yes_no n) s g k = Some m ->
  exists s' t, is_token t /\ k s' (<[n := t]> g) = Some m.
Proof.
  unfold yes_no. cbn [rmatch]. intros H.
  destruct (rmatch (lit "yes") s g _) eqn:E.
  - injection H as ->.
    destruct (rmatch_lit_inv _ _ _ _ _ E) as (mid & s' & -> & Hm & Hk).
    rewrite consumed_app in Hk. exists s', mid. split; [left; exact Hm|exact Hk].
  - destruct (rmatch_lit_inv _ _ _ _ _ H) as (mid & s' & -> & Hm & Hk).
    rewrite consumed_app in Hk. exists s', mid. split; [right; exact Hm|exact Hk].
Qed.

(** A pattern without group [n] leaves the entry of [n] as it is. *)
Lemma rmatch_avoids (n : nat) (r : regex) :
  has_group n r = false ->
  forall s g k m,
    rmatch r s g k = Some m ->
    exists s' g', k s' g' = Some m /\ g' !! n = g !! n.
Proof.
  induction r as [|a|a|a|r IH|r1 IH1 r2 IH2|r1 IH1 r2 IH2|i r IH|];
    intros Hn s g k m H; simpl in H, Hn.
  - eauto.
  - destruct s as [|c s]; [discriminate|].
    destruct (atom_matches a c); [eauto|discriminate].
  - apply star_greedy_inv in H as [s' H]. eauto.
  - destruct s as [|c s]; [discriminate|].
    destruct (atom_matches a c); [|discriminate].
    apply star_greedy_inv in H as [s' H]. eauto.
  - destruct (rmatch r s g k) eqn:E; [|eauto].
    injection H as ->. eapply IH; eassumption.
  - apply orb_false_elim in Hn as [Hn1 Hn2].
    destruct (IH1 Hn1 _ _ _ _ H) as (s1 & g1 & H1 & Hg1).
    destruct (IH2 Hn2 _ _ _ _ H1) as (s2 & g2 & H2 & Hg2).
    exists s2, g2. split; [exact H2|congruence].
  - apply orb_false_elim in Hn as [Hn1 Hn2].
    destruct (rmatch r1 s g k) eqn:E.
    + injection H as ->. eapply IH1; eassumption.
    + eapply IH2; eassumption.
  - apply orb_false_elim in Hn as [Hi Hn].
    destruct (IH Hn _ _ _ _ H) as (s' & g' & Hk & Hg).
    exists s', (<[i := consumed s s']> g'). split; [exact Hk|].
    apply Nat.eqb_neq in Hi. rewrite lookup_insert_ne by congruence. exact Hg.
  - destruct (at_eol s); [eauto|discriminate].
Qed.

Lemma rmatch_yields (n : nat) (r : regex) :
  Yields n r ->
  forall s g k m,
    rmatch r s g k = Some m ->
    exists s' g' t, k s' g' = Some m /\ g' !! n = Some t /\ is_token t.
Proof.
  induction 1 as [|r1 r2 _ IH Hn|r1 r2 _ IH]; intros s g k m H.
  - destruct (yes_no_inv _ _ _ _ _ H) as (s' & t & Ht & Hk).
    exists s', (<[n := t]> g), t. rewrite lookup_insert_eq. auto.
  - cbn [rmatch] in H.
    destruct (IH _ _ _ _ H) as (s1 & g1 & t & H1 & Hg1 & Ht).
    destruct (rmatch_avoids n r2 Hn _ _ _ _ H1) as (s2 & g2 & H2 & Hg2).
    exists s2, g2, t. split; [exact H2|]. split; [congruence|exact Ht].
  - cbn [rmatch] in H.
    destruct (rmatch_inv _ _ _ _ _ H) as (s1 & g1 & H1 & _).
    eapply IH, H1.
Qed.

Lemma re_match_token (n : nat) (r : regex) (s : string) (m : groups) :
  Yields n r -> re_match r s = Some m ->
  exists t, m !! n = Some t /\ is_token t.
Proof.
  intros Hy H. destruct (rmatch_yields n r Hy _ _ _ _ H)
    as (s' & g' & t & Hk & Hg & Ht).
  injection Hk as <-. eauto.
Qed.

Lemma lower_char_y (c : ascii) : lower_char c = "y"%char -> title_char c = "Y".
Proof.
  destruct c as [[] [] [] [] [] [] [] []]; intros H; vm_compute in H;
    try discriminate H; reflexivity.
Qed.

Lemma lower_char_n (c : ascii) : lower_char c = "n"%char -> title_char c = "N".
Proof.
  destruct c as [[] [] [] [] [] [] [] []]; intros H; vm_compute in H;
    try discriminate H; reflexivity.
Qed.

(** A token is capitalized to "Yes" or to "No". *)
Lemma capitalize_token (t : string) :
  (lower t = "yes" -> capitalize t = "Yes") /\
  (lower t = "no" -> capitalize t = "No").
Proof.
  split; (destruct t as [|c t]; [discriminate|]);
    simpl; intros [= Hc Ht]; rewrite Ht.
  - rewrite (lower_char_y c Hc). reflexivity.
  - rewrite (lower_char_n c Hc). reflexivity.
Qed.

Ltac yields :=
  solve [ apply Yields_token
        | apply Yields_left; [yields|reflexivity]
        | apply Yields_right; yields ].

Lemma patterns_yield_token :
  Forall (fun p => Yields (entry_index p) (entry_regex p)
                   /\ has_group (entry_index p) (entry_regex p) = true)
    patterns.
Proof.
  unfold patterns, said. cbn [rcat].
  repeat (constructor; [split; [simpl; yields|reflexivity]|]).
  constructor.
Qed.

(** The loop over the anchored patterns gives "Yes" or "No" when a pattern
    matches, and the empty text exactly when none does. *)
Lemma scan_patterns_spec (response : string) (ps : list pattern_entry) :
  Forall (fun p => Yields (entry_index p) (entry_regex p)
                   /\ has_group (entry_index p) (entry_regex p) = true) ps ->
  (scan_patterns ps response = inr ""
   /\ Forall (fun p => re_match (entry_regex p) response = None) ps)
  \/ ((scan_patterns ps response = inr "Yes"
       \/ scan_patterns ps response = inr "No")
      /\ Exists (fun p => re_match (entry_regex p) response <> None) ps).
Proof.
  induction 1 as [|p ps [Hy Hg] _ IH]; [left; split; [reflexivity|constructor]|].
  assert (Hscan : scan_patterns (p :: ps) response
                  = match re_match (entry_regex p) response with
                    | Some matched =>
                        match group matched (entry_regex p) (entry_index p) with
                        | inr text => inr (capitalize text)
                        | inl e => inl e
                        end
                    | None => scan_patterns ps response
                    end) by (destruct p; reflexivity).
  rewrite Hscan. destruct (re_match (entry_regex p) response) as [m|] eqn:E.
  - right. split; [|left; rewrite E; discriminate].
    destruct (re_match_token _ _ _ _ Hy E) as (t & Hm & [Ht|Ht]);
      unfold group; rewrite Hg, Hm;
      [left; rewrite (proj1 (capitalize_token t) Ht)
      |right; rewrite (proj2 (capitalize_token t) Ht)]; reflexivity.
  - destruct IH as [[Hs Hall]|[Hs Hex]].
    + left. split; [exact Hs|]. constructor; [exact E|exact Hall].
    + right. split; [exact Hs|]. right. exact Hex.
Qed.

Lemma scan_correct_spec (response : string) (ps : list regex) :
  (scan_correct ps response = ""
   /\ Forall (fun r => re_search r response = None) ps)
  \/ scan_correct ps response = "Yes".
Proof.
  induction ps as [|r ps IH]; [left; split; [reflexivity|constructor]|].
  simpl. destruct (re_search r response) eqn:E; [right; reflexivity|].
  destruct IH as [[Hs Hall]|Hs]; [left|right; exact Hs].
  split; [exact Hs|]. constructor; [exact E|exact Hall].
Qed.

(** X1: [_parse_response] never raises: on every response it returns 0 or 1;
    it logs nothing, or it returns 0 and logs the one warning about the
    response. *)
Theorem parse_response_bit_and_log (response candidate_answer question : string) :
  exists j,
    (j = 0 \/ j = 1) /\
    (_parse_response response candidate_answer question = (inr j, [])
     \/ (j = 0 /\
         _parse_response response candidate_answer question
         = (inr 0, [Warning (invalid_response_message question
                               candidate_answer response)]))).
Proof.
  unfold _parse_response.
  destruct (startswith (lower response) "yes"); [exists 1; auto|].
  destruct (startswith (lower response) "no"); [exists 0; auto|].
  destruct (scan_patterns_spec response _ patterns_yield_token)
    as [[-> _]|[[-> | ->] _]]; [|exists 1; auto|exists 0; auto].
  cbv beta iota zeta. change (truthy "") with false. cbv iota.
  destruct (scan_correct_spec response correct_patterns) as [[-> _]| ->].
  - exists 0. split; [auto|]. right. split; reflexivity.
  - exists 1. auto.
Qed.

(** X2: the warning is logged exactly for the responses that no rule
    classifies: those that do not start with yes or no, that no anchored
    pattern matches and in which no indirect affirmation is found. *)
Theorem parse_response_warns_iff_unparseable
    (response candidate_answer question : string) :
  snd (_parse_response response candidate_answer question) <> []
  <-> unparseable response.
Proof.
  unfold _parse_response, unparseable, no_anchored_match.
  destruct (startswith (lower response) "yes");
    [split; [intros H; contradiction|intros [H _]; discriminate]|].
  destruct (startswith (lower response) "no");
    [split; [intros H; contradiction|intros (_ & H & _); discriminate]|].
  destruct (scan_patterns_spec response _ patterns_yield_token)
    as [[-> Hnone]|[Hs Hex]].
  - cbv beta iota zeta. change (truthy "") with false. cbv iota.
    destruct (scan_correct_spec response correct_patterns) as [[-> Hc]|Hyes].
    + split; [auto|intros _; discriminate].
    + rewrite Hyes. split; [intros H; contradiction|].
      intros (_ & _ & _ & Hc).
      rewrite (scan_correct_none _ _ Hc) in Hyes. discriminate.
  - assert (Hmatch : ~ Forall (fun p => re_match (entry_regex p) response = None)
                         patterns).
    { intros Hall. apply Exists_exists in Hex as (p & Hin & Hp).
      rewrite Forall_forall in Hall. apply Hp, Hall, Hin. }
    destruct Hs as [-> | ->];
      (split; [intros H; contradiction|intros (_ & _ & Hall & _); tauto]).
Qed.

(** *** The parser reads the response up to letter case *)

Lemma lower_length (s : string) : String.length (lower s) = String.length s.
Proof. induction s as [|c s IH]; simpl; congruence. Qed.

Lemma lower_take (n : nat) (s : string) :
  lower (PyStr.take n s) = PyStr.take n (lower s).
Proof.
  revert s. induction n as [|n IH]; intros [|c s]; simpl; try reflexivity.
  rewrite IH. reflexivity.
Qed.

Lemma lower_consumed (s1 s1' s2 s2' : string) :
  lower s1 = lower s2 -> lower s1' = lower s2' ->
  lower (consumed s1 s1') = lower (consumed s2 s2').
Proof.
  intros H H'. unfold consumed. rewrite !lower_take, H.
  rewrite <- (lower_length s1), <- (lower_length s1'), H, H', !lower_length.
  reflexivity.
Qed.

Lemma isspace_lower (c : ascii) : isspace (lower_char c) = isspace c.
Proof. destruct c as [[] [] [] [] [] [] [] []]; reflexivity. Qed.

Lemma newline_lower (c : ascii) :
  Ascii.eqb (lower_char c) "010" = Ascii.eqb c "010".
Proof. destruct c as [[] [] [] [] [] [] [] []]; reflexivity. Qed.

Lemma title_char_lower (c : ascii) : title_char (lower_char c) = title_char c.
Proof. destruct c as [[] [] [] [] [] [] [] []]; reflexivity. Qed.

Lemma atom_matches_ci (a : atom) (c1 c2 : ascii) :
  lower_char c1 = lower_char c2 -> atom_matches a c1 = atom_matches a c2.
Proof.
  intros H. destruct a as [|p|cs|]; simpl; unfold char_eq_ci.
  - reflexivity.
  - rewrite H. reflexivity.
  - rewrite H. reflexivity.
  - rewrite <- (isspace_lower c1), H. apply isspace_lower.
Qed.

Lemma at_eol_ci (s1 s2 : string) : lower s1 = lower s2 -> at_eol s1 = at_eol s2.
Proof.
  destruct s1 as [|c1 s1], s2 as [|c2 s2]; try discriminate; [reflexivity|].
  simpl. intros [= H _]. rewrite <- (newline_lower c1), H. apply newline_lower.
Qed.

Lemma capitalize_ci (t1 t2 : string) :
  lower t1 = lower t2 -> capitalize t1 = capitalize t2.
Proof.
  destruct t1 as [|c1 t1], t2 as [|c2 t2]; try discriminate; [reflexivity|].
  simpl. intros [= Hc ->]. rewrite <- (title_char_lower c1), Hc.
  rewrite title_char_lower. reflexivity.
Qed.

Lemma groups_ci_insert (n : nat) (t1 t2 : string) (g1 g2 : groups) :
  lower t1 = lower t2 -> groups_ci g1 g2 ->
  groups_ci (<[n := t1]> g1) (<[n := t2]> g2).
Proof.
  intros Ht Hg i. destruct (decide (n = i)) as [->|Hne].
  - rewrite !lookup_insert_eq. simpl. rewrite Ht. reflexivity.
  - rewrite !lookup_insert_ne by exact Hne. apply Hg.
Qed.

Lemma match_ci_first (o1 o2 p1 p2 : option groups) :
  match_ci o1 o2 -> match_ci p1 p2 ->
  match_ci (match o1 with Some x => Some x | None => p1 end)
           (match o2 with Some x => Some x | None => p2 end).
Proof. destruct o1, o2; simpl; tauto. Qed.

Lemma star_greedy_ci (a : atom) (s1 : string) :
  forall s2 (k1 k2 : string -> option groups),
    lower s1 = lower s2 ->
    (forall t1 t2, lower t1 = lower t2 -> match_ci (k1 t1) (k2 t2)) ->
    match_ci (star_greedy a s1 k1) (star_greedy a s2 k2).
Proof.
  induction s1 as [|c1 s1 IH]; intros [|c2 s2] k1 k2 H Hk; try discriminate.
  - apply Hk. reflexivity.
  - simpl. pose proof H as H'. simpl in H'. injection H' as Hc Hs.
    rewrite (atom_matches_ci a c1 c2 Hc).
    destruct (atom_matches a c2); [|apply Hk, H].
    apply match_ci_first; [apply IH; assumption|apply Hk, H].
Qed.

(** The matcher on two texts that agree up to letter case: both fail, or
    both succeed with groups that agree up to letter case. *)
Lemma rmatch_ci (r : regex) :
  forall s1 s2 g1 g2 k1 k2,
    lower s1 = lower s2 -> groups_ci g1 g2 ->
    (forall t1 t2 h1 h2,
       lower t1 = lower t2 -> groups_ci h1 h2 ->
       match_ci (k1 t1 h1) (k2 t2 h2)) ->
    match_ci (rmatch r s1 g1 k1) (rmatch r s2 g2 k2).
Proof.
  induction r as [|a|a|a|r IH|r1 IH1 r2 IH2|r1 IH1 r2 IH2|i r IH|];
    intros s1 s2 g1 g2 k1 k2 Hs Hg Hk; cbn [rmatch].
  - apply Hk; assumption.
  - destruct s1 as [|c1 s1], s2 as [|c2 s2]; try discriminate; [exact I|].
    simpl in Hs. injection Hs as Hc Hs.
    rewrite (atom_matches_ci a c1 c2 Hc).
    destruct (atom_matches a c2); [apply Hk; assumption|exact I].
  - apply star_greedy_ci; [exact Hs|]. intros t1 t2 Ht. apply Hk; assumption.
  - destruct s1 as [|c1 s1], s2 as [|c2 s2]; try discriminate; [exact I|].
    simpl in Hs. injection Hs as Hc Hs.
    rewrite (atom_matches_ci a c1 c2 Hc).
    destruct (atom_matches a c2); [|exact I].
    apply star_greedy_ci; [exact Hs|]. intros t1 t2 Ht. apply Hk; assumption.
  - apply match_ci_first; [apply IH; assumption|apply Hk; assumption].
  - apply IH1; [assumption..|]. intros t1 t2 h1 h2 Ht Hh.
    apply IH2; assumption.
  - apply match_ci_first; [apply IH1|apply IH2]; assumption.
  - apply IH; [assumption..|]. intros t1 t2 h1 h2 Ht Hh.
    apply Hk; [exact Ht|].
    apply groups_ci_insert; [apply lower_consumed|]; assumption.
  - rewrite (at_eol_ci s1 s2 Hs). destruct (at_eol s2); [|exact I].
    apply Hk; assumption.
Qed.

Lemma re_match_ci (r : regex) (s1 s2 : string) :
  lower s1 = lower s2 -> match_ci (re_match r s1) (re_match r s2).
Proof.
  intros H. apply rmatch_ci; [exact H|intros n; reflexivity|].
  intros t1 t2 h1 h2 _ Hh. exact Hh.
Qed.

Lemma re_search_ci (r : regex) (s1 : string) :
  forall s2, lower s1 = lower s2 ->
             match_ci (re_search r s1) (re_search r s2).
Proof.
  induction s1 as [|c1 s1 IH]; intros [|c2 s2] H; try discriminate.
  - rewrite !re_search_unfold. apply match_ci_first; [|exact I].
    apply re_match_ci, H.
  - rewrite (re_search_unfold r (String c1 s1)),
      (re_search_unfold r (String c2 s2)).
    apply match_ci_first; [apply re_match_ci, H|].
    apply IH. simpl in H. injection H as _ H. exact H.
Qed.

Lemma scan_patterns_ci (s1 s2 : string) (ps : list pattern_entry) :
  lower s1 = lower s2 -> scan_patterns ps s1 = scan_patterns ps s2.
Proof.
  intros H. induction ps as [|p ps IH]; [reflexivity|].
  assert (Hstep : forall r i,
             match re_match r s1 with
             | Some matched =>
                 match group matched r i with
                 | inr text => inr (capitalize text)
                 | inl e => inl e
                 end
             | None => scan_patterns ps s1
             end
             = match re_match r s2 with
               | Some matched =>
                   match group matched r i with
                   | inr text => inr (capitalize text)
                   | inl e => inl e
                   end
               | None => scan_patterns ps s2
               end).
  { intros r i. pose proof (re_match_ci r s1 s2 H) as Hm.
    destruct (re_match r s1) as [m1|], (re_match r s2) as [m2|];
      simpl in Hm; try contradiction; [|exact IH].
    unfold group. destruct (has_group i r); [|reflexivity].
    specialize (Hm i).
    destruct (m1 !! i) as [t1|], (m2 !! i) as [t2|]; simpl in Hm;
      try discriminate; [|reflexivity].
    injection Hm as Hm. rewrite (capitalize_ci t1 t2 Hm). reflexivity. }
  destruct p as [r|r i]; simpl; apply Hstep.
Qed.

Lemma scan_correct_ci (s1 s2 : string) (ps : list regex) :
  lower s1 = lower s2 -> scan_correct ps s1 = scan_correct ps s2.
Proof.
  intros H. induction ps as [|r ps IH]; [reflexivity|]. simpl.
  pose proof (re_search_ci r s1 s2 H) as Hm.
  destruct (re_search r s1), (re_search r s2); simpl in Hm;
    try contradiction; [reflexivity|exact IH].
Qed.

(** On the 8-bit characters of the model, two responses with the same
    lower-cased text get the same judgment. *)
Lemma parse_response_lower_eq
    (response1 response2 answer1 answer2 question1 question2 : string) :
  lower response1 = lower response2 ->
  fst (_parse_response response1 answer1 question1)
  = fst (_parse_response response2 answer2 question2).
Proof.
  intros H. unfold _parse_response.
  rewrite H, (scan_patterns_ci _ _ patterns H),
    (scan_correct_ci _ _ correct_patterns H).
  destruct (startswith (lower response2) "yes"); [reflexivity|].
  destruct (startswith (lower response2) "no"); [reflexivity|].
  destruct (scan_patterns patterns response2) as [e|a]; [reflexivity|].
  cbv zeta.
  destruct (truthy (if truthy a then a
                    else scan_correct correct_patterns response2));
    reflexivity.
Qed.

Lemma lower_ascii_lower_char (c : ascii) :
  lower_char (ascii_lower_char c) = lower_char c.
Proof. destruct c as [[] [] [] [] [] [] [] []]; reflexivity. Qed.

Lemma lower_ascii_lower (s : string) : lower (ascii_lower s) = lower s.
Proof.
  induction s as [|c s IH]; [reflexivity|].
  simpl. rewrite lower_ascii_lower_char, IH. reflexivity.
Qed.

(** X3: the case of the letters A..Z and a..z of the response does not
    matter: two responses that are the same up to the case of these letters
    get the same judgment, whatever the candidate answers and the questions
    are. *)
Theorem parse_response_ignores_case
    (response1 response2 answer1 answer2 question1 question2 : string) :
  ascii_lower response1 = ascii_lower response2 ->
  fst (_parse_response response1 answer1 question1)
  = fst (_parse_response response2 answer2 question2).
Proof.
  intros H. apply parse_response_lower_eq.
  rewrite <- (lower_ascii_lower response1), H. apply lower_ascii_lower.
Qed.

Lemma parse_response_ignores_case_witness :
  fst (_parse_response "MY FINAL JUDGMENT IS 'YES'!" "Biden" "who?")
  = fst (_parse_response "my final judgment is 'yes'!" "Obama" "when?").
Proof.
  apply parse_response_ignores_case. vm_compute. reflexivity.
Defined.

(** ** The prompt builder: questions, passages, templates *)

Lemma drop_last_mark (q : string) : drop_last (q +:+ "?") = q.
Proof.
  induction q as [|c q IH]; [reflexivity|].
  rewrite sapp_cons. simpl. rewrite IH. destruct q; reflexivity.
Qed.

(** X4: the question put in the prompt always ends with a question mark, and
    normalizing it again changes nothing. *)
Theorem normalize_question_ends_with_mark (q : string) :
  ends_with_question_mark (normalize_question q) /\
  normalize_question (normalize_question q) = normalize_question q.
Proof.
  assert (H : endswith_char (normalize_question q) "?" = true).
  { unfold normalize_question. destruct (endswith_char q "?") eqn:E; [exact E|].
    apply endswith_char_spec. exists q. reflexivity. }
  split; [apply endswith_char_spec, H|].
  unfold normalize_question at 1. rewrite H. reflexivity.
Qed.

(** X5: the passage of a question is found in the context file under the
    question as it stands in the prompt (with its question mark), and, when
    that key is missing, under the question without the question mark; the
    first of the two wins. *)
Theorem lookup_passage_with_or_without_mark
    (ctx : gmap string string) (candidate : candidate_input) (p : string) :
  (ctx !! lookup_key candidate = Some p ->
   forall template,
     fill_template template (Some ctx) candidate
     = format template (passage_kwargs candidate (VStr p))) /\
  (~ ends_with_question_mark (candidate_fields candidate).2 ->
   ctx !! ((candidate_fields candidate).2 +:+ "?") = None ->
   ctx !! (candidate_fields candidate).2 = Some p ->
   forall template,
     fill_template template (Some ctx) candidate
     = format template (passage_kwargs candidate (VStr p))).
Proof.
  unfold fill_template, passage_kwargs, lookup_key.
  destruct (candidate_fields candidate) as [[gold ca] q]. simpl.
  assert (Hne : forall k v, ctx !! k = Some v -> ctx <> ∅).
  { intros k v Hk ->. rewrite lookup_empty in Hk. discriminate. }
  split.
  - intros H template. rewrite bool_decide_true by (eapply Hne, H).
    unfold lookup_passage. rewrite H. reflexivity.
  - intros Hq Hmark Hraw template.
    rewrite bool_decide_true by (eapply Hne, Hraw).
    assert (Hn : normalize_question q = q +:+ "?").
    { unfold normalize_question.
      destruct (endswith_char q "?") eqn:E; [|reflexivity].
      apply endswith_char_spec in E. contradiction. }
    unfold lookup_passage. rewrite Hn, Hmark, drop_last_mark, Hraw.
    reflexivity.
Qed.

Lemma lookup_passage_with_or_without_mark_witness :
  fill_template "{passage}"
    (Some {[ "who is the president" := "The president is Joe Biden." ]})
    (CObj president)
  = inr "The president is Joe Biden.".
Proof.
  rewrite (proj2 (lookup_passage_with_or_without_mark
                    {[ "who is the president" := "The president is Joe Biden." ]}
                    (CObj president) "The president is Joe Biden.")).
  - vm_compute. reflexivity.
  - intros H%endswith_char_spec. vm_compute in H. discriminate H.
  - vm_compute. reflexivity.
  - vm_compute. reflexivity.
Defined.

Lemma base_kwargs_lookup (q g c k : string) :
  is_Some (base_kwargs q g c !! k) <-> In k base_names.
Proof.
  unfold base_kwargs, base_names.
  rewrite !lookup_insert_is_Some', lookup_empty. simpl.
  split.
  - intros [H|[H|[H|[v H]]]]; [auto..|discriminate].
  - intros [H|[H|[H|[]]]]; auto.
Qed.

(** Which exception [format] raises does not depend on the values of the
    keyword arguments, only on their names. *)
Lemma format_go_error_names (kw1 kw2 : gmap string pyval) :
  (forall k, is_Some (kw1 !! k) <-> is_Some (kw2 !! k)) ->
  forall s st e, format_go kw1 st s = inl e -> format_go kw2 st s = inl e.
Proof.
  intros Hdom.
  assert (Hemit : forall v r e, emit v r = inl e -> r = inl e).
  { intros v [e'|t] e; simpl; [auto|discriminate]. }
  assert (Hfield : forall n,
             match format_field kw1 n, format_field kw2 n with
             | inl e1, inl e2 => e1 = e2
             | inr _, inr _ => True
             | _, _ => False
             end).
  { intros n. unfold format_field. destruct (all_digits n).
    - destruct (_ <=? _)%nat; reflexivity.
    - specialize (Hdom n).
      destruct (kw1 !! n), (kw2 !! n); try exact I; try reflexivity;
        exfalso; [apply proj1 in Hdom|apply proj2 in Hdom];
        destruct Hdom; eauto; discriminate. }
  induction s as [|c s IH]; intros st e H.
  - destruct st; [discriminate|exact H..].
  - cbn [format_go] in *.
    assert (Hin : forall f,
               (if Ascii.eqb c "}" then
                  match format_field kw1 (String.rev f) with
                  | inl e => inl e
                  | inr v => emit v (format_go kw1 FText s)
                  end
                else if field_special c then inl Unsupported
                     else format_go kw1 (FField (String c f)) s) = inl e ->
               (if Ascii.eqb c "}" then
                  match format_field kw2 (String.rev f) with
                  | inl e => inl e
                  | inr v => emit v (format_go kw2 FText s)
                  end
                else if field_special c then inl Unsupported
                     else format_go kw2 (FField (String c f)) s) = inl e).
    { intros f Hf. destruct (Ascii.eqb c "}").
      - specialize (Hfield (String.rev f)).
        destruct (format_field kw1 (String.rev f)),
          (format_field kw2 (String.rev f)); try contradiction.
        + congruence.
        + apply Hemit, IH in Hf. rewrite Hf. reflexivity.
      - destruct (field_special c); [exact Hf|]. apply IH, Hf. }
    destruct st.
    + destruct (Ascii.eqb c "{"); [apply IH, H|].
      destruct (Ascii.eqb c "}"); [apply IH, H|].
      apply Hemit, IH in H. rewrite H. reflexivity.
    + destruct (Ascii.eqb c "{"); [|apply Hin, H].
      apply Hemit, IH in H. rewrite H. reflexivity.
    + destruct (Ascii.eqb c "}"); [|exact H].
      apply Hemit, IH in H. rewrite H. reflexivity.
    + apply Hin, H.
Qed.

Lemma fill_template_error_any_candidate (template : string)
    (ctx : option (gmap string string)) (c1 c2 : candidate_input) (e : exn) :
  fill_template template ctx c1 = inl e ->
  fill_template template ctx c2 = inl e.
Proof.
  unfold fill_template.
  destruct (candidate_fields c1) as [[g1 a1] q1].
  destruct (candidate_fields c2) as [[g2 a2] q2].
  assert (Hbase : forall k,
             is_Some (base_kwargs (normalize_question q1) (render_gold g1) a1
                        !! k)
             <-> is_Some (base_kwargs (normalize_question q2) (render_gold g2)
                            a2 !! k)).
  { intros k. rewrite !base_kwargs_lookup. reflexivity. }
  destruct ctx as [ctx|]; [|apply format_go_error_names, Hbase].
  destruct (bool_decide (ctx <> ∅)); [|apply format_go_error_names, Hbase].
  apply format_go_error_names. intros k.
  rewrite !lookup_insert_is_Some', Hbase. reflexivity.
Qed.

Lemma prepare_one_error_any_candidate (template model : string)
    (ctx : option (gmap string string)) (c1 c2 : candidate_input) (e : exn) :
  prepare_one template model ctx c1 = inl e ->
  prepare_one template model ctx c2 = inl e.
Proof.
  unfold prepare_one.
  destruct (fill_template template ctx c1) as [e1|p1] eqn:E1.
  - intros [= ->].
    rewrite (fill_template_error_any_candidate _ _ _ c2 _ E1). reflexivity.
  - destruct (_is_conversational model); discriminate.
Qed.

(** X6: for a template of plain fields, whether the prompt can be built
    depends on the prompt file and on the presence of a context, not on the
    candidates: when it is built for one candidate it is built for every list
    of candidates, and when [format] raises for one candidate it raises the
    same exception for every list that is not empty.  (A template outside the
    modelled fragment is built for no candidate in the model, and the mark
    [Unsupported] is no exception of [format]: nothing is stated of it.) *)
Theorem prepare_succeeds_for_all_or_none (prompt_file model : string)
    (ctx : option (gmap string string)) (c : candidate_input) :
  (forall examples,
     _prepare [c] prompt_file model ctx = inr examples ->
     forall candidates,
       exists prompts, _prepare candidates prompt_file model ctx = inr prompts)
  /\
  (forall e,
     e <> Unsupported ->
     _prepare [c] prompt_file model ctx = inl e ->
     forall c' candidates,
       _prepare (c' :: candidates) prompt_file model ctx = inl e).
Proof.
  unfold _prepare. split.
  - intros examples H candidates.
    induction candidates as [|c' cs [ps IH]]; [simpl; eauto|].
    cbn [prepare_loop]. rewrite IH.
    destruct (prepare_one (strip prompt_file) model ctx c') as [e|p] eqn:E;
      [|eauto].
    apply (prepare_one_error_any_candidate _ _ _ _ c) in E.
    simpl in H. rewrite E in H. discriminate.
  - intros e _ H c' candidates. cbn [prepare_loop] in *.
    destruct (prepare_one (strip prompt_file) model ctx c) as [e'|p] eqn:E;
      [|discriminate].
    injection H as ->.
    rewrite (prepare_one_error_any_candidate _ _ _ _ c' _ E). reflexivity.
Qed.

Lemma prepare_succeeds_for_all_or_none_witness :
  (exists prompts,
     _prepare [CObj president; CDict ["Paris"] "Paris." "capital of France"]
       "{q} {candidate_answer}" llama None = inr prompts) /\
  _prepare [CDict ["Paris"] "Paris." "capital of France"; CObj president]
    "{q} {context}" llama None = inl (KeyError "context").
Proof.
  split.
  - apply (proj1 (prepare_succeeds_for_all_or_none "{q} {candidate_answer}"
                    llama None (CObj president))
             [Chat [user_turn "who is the president? Biden"]]).
    vm_compute. reflexivity.
  - apply (proj2 (prepare_succeeds_for_all_or_none "{q} {context}"
                    llama None (CObj president))).
    + discriminate.
    + vm_compute. reflexivity.
Defined.

(** X7: a [KeyError] of the prompt builder never names one of the three
    fields the source always passes, nor the passage when a context that is
    not empty is given; the key is a name of the template that the source
    does not know. *)
Theorem fill_template_key_error_unknown_name (template : string)
    (ctx : option (gmap string string)) (candidate : candidate_input)
    (key : string) :
  fill_template template ctx candidate = inl (KeyError key) ->
  ~ In key base_names /\
  (forall m, ctx = Some m -> m <> ∅ -> key <> "passage").
Proof.
  unfold fill_template.
  destruct (candidate_fields candidate) as [[gold ca] q].
  set (base := base_kwargs (normalize_question q) (render_gold gold) ca).
  assert (Hbase : base !! key = None -> ~ In key base_names).
  { intros Hk Hin.
    apply (base_kwargs_lookup (normalize_question q) (render_gold gold) ca)
      in Hin.
    fold base in Hin. rewrite Hk in Hin. destruct Hin; discriminate. }
  destruct ctx as [m|].
  - destruct (bool_decide_reflect (m <> ∅)) as [Hne|He].
    + intros H%format_go_key_error.
      apply lookup_insert_None in H as [Hk Hp].
      split; [exact (Hbase Hk)|]. intros _ _ _. congruence.
    + intros H%format_go_key_error. split; [exact (Hbase H)|].
      intros m' [= <-] Hm. contradiction.
  - intros H%format_go_key_error. split; [exact (Hbase H)|]. discriminate.
Qed.

Lemma fill_template_key_error_unknown_name_witness :
  fill_template "{q} {context}" (Some other_context) (CObj president)
  = inl (KeyError "context") /\
  ~ In "context" base_names /\
  (forall m, Some other_context = Some m -> m <> ∅ -> "context" <> "passage").
Proof.
  assert (H : fill_template "{q} {context}" (Some other_context)
                (CObj president) = inl (KeyError "context"))
    by (vm_compute; reflexivity).
  split; [exact H|].
  exact (fill_template_key_error_unknown_name _ _ _ _ H).
Defined.

(** X8: without a context file, or with an empty one, a template that refers
    to the passage after literal text is not filled: the builder raises the
    [KeyError] of the passage. *)
Theorem fill_template_passage_without_context (pre post : string)
    (ctx : option (gmap string string)) (candidate : candidate_input) :
  braces_free pre = true ->
  ctx = None \/ ctx = Some ∅ ->
  fill_template (pre +:+ "{passage}" +:+ post) ctx candidate
  = inl (KeyError "passage").
Proof.
  intros Hpre Hctx. unfold fill_template.
  destruct (candidate_fields candidate) as [[gold ca] q].
  set (base := base_kwargs (normalize_question q) (render_gold gold) ca).
  assert (H : format (pre +:+ "{passage}" +:+ post) base
              = inl (KeyError "passage")).
  { unfold format. rewrite (format_go_literal _ _ _ Hpre).
    change ("{passage}" +:+ post)
      with (String "{" ("passage" +:+ String "}" post)).
    rewrite format_go_field by reflexivity.
    unfold format_field. change (all_digits "passage") with false. cbv iota.
    assert (Hk : base !! "passage" = None).
    { destruct (base !! "passage") eqn:E; [|reflexivity].
      assert (Hin : In "passage" base_names).
      { apply (base_kwargs_lookup (normalize_question q) (render_gold gold)
                 ca). fold base. eauto. }
      simpl in Hin. intuition discriminate. }
    rewrite Hk. reflexivity. }
  destruct Hctx as [-> | ->]; [exact H|].
  rewrite bool_decide_false by (intros Hne; apply Hne; reflexivity). exact H.
Qed.

Lemma fill_template_passage_without_context_witness :
  fill_template ("Context: " +:+ "{passage}" +:+ " Q: {q}") (Some ∅)
    (CObj president)
  = inl (KeyError "passage").
Proof.
  apply fill_template_passage_without_context; [reflexivity|].
  right. reflexivity.
Defined.

(** ** The prompt builder: the shape of the prompts *)

Lemma build_chat_shape (model p : string) :
  exists before u,
    build_chat model p = before ++ [user_turn u] /\
    (before = [] \/ exists i, i <> "" /\ before = [system_turn i]).
Proof.
  unfold build_chat.
  destruct (contains model "Mistral" || contains model "tulu-2");
    [exists [], p; auto|].
  destruct (1 <? length (split p "###"))%nat;
    [|exists [], (strip (List.last (split p "###") "")); auto].
  destruct (truthy (join "###" (removelast (split p "###")))) eqn:E;
    [|exists [], (strip (List.last (split p "###") "")); auto].
  exists [system_turn (join "###" (removelast (split p "###")))],
    (strip (List.last (split p "###") "")).
  split; [reflexivity|]. right. eexists. split; [|reflexivity].
  unfold truthy in E. apply negb_true_iff, String.eqb_neq in E. exact E.
Qed.

(** X9: when [_prepare] returns, it returns one prompt per candidate; for a
    conversational model every prompt is a chat that ends with its user turn,
    preceded by nothing or by one system turn whose content is not empty; for
    every other model every prompt is a plain text. *)
Theorem prepare_prompt_shapes (candidates : list candidate_input)
    (prompt_file model : string) (ctx : option (gmap string string))
    (examples : list prompt) :
  _prepare candidates prompt_file model ctx = inr examples ->
  length examples = length candidates /\
  (_is_conversational model = true ->
   Forall (fun p =>
             exists before u,
               p = Chat (before ++ [user_turn u]) /\
               (before = [] \/ exists i, i <> "" /\ before = [system_turn i]))
     examples) /\
  (_is_conversational model = false ->
   Forall (fun p => exists s, p = Flat s) examples).
Proof.
  intros H%prepare_loop_Forall2.
  split; [symmetry; apply (Forall2_length _ _ _ H)|].
  split; intros Hconv; induction H as [|c p cs ps Hp _ IH]; try constructor;
    try exact IH; unfold prepare_one in Hp; rewrite Hconv in Hp;
    destruct (fill_template _ ctx c) as [e|filled]; try discriminate;
    injection Hp as <-.
  - destruct (build_chat_shape model filled) as (before & u & -> & Hb).
    eauto.
  - eauto.
Qed.

Lemma prepare_prompt_shapes_witness :
  let examples :=
    [Chat [system_turn "Judge."; user_turn "who is the president?"];
     Chat [system_turn "Judge."; user_turn "who is the president?"]] in
  _prepare [CObj president; CObj president] "Judge.###{q}" llama None
  = inr examples /\
  length examples = 2%nat /\
  (_is_conversational llama = true ->
   Forall (fun p =>
             exists before u,
               p = Chat (before ++ [user_turn u]) /\
               (before = [] \/ exists i, i <> "" /\ before = [system_turn i]))
     examples) /\
  (_is_conversational llama = false ->
   Forall (fun p => exists s, p = Flat s) examples).
Proof.
  intros examples.
  assert (H : _prepare [CObj president; CObj president] "Judge.###{q}" llama
                None = inr examples) by (vm_compute; reflexivity).
  split; [exact H|].
  exact (prepare_prompt_shapes _ _ _ _ _ H).
Defined.

(** ** Stripping and splitting *)

Lemma lstrip_shape (s : string) :
  lstrip s = "" \/ exists c t, lstrip s = String c t /\ isspace c = false.
Proof.
  induction s as [|c s IH]; [left; reflexivity|]. simpl.
  destruct (isspace c) eqn:E; [exact IH|]. right. eauto.
Qed.

Lemma rstrip_idem (s : string) : rstrip (rstrip s) = rstrip s.
Proof.
  induction s as [|c s IH]; [reflexivity|]. simpl.
  destruct (rstrip s) as [|d r] eqn:E.
  - destruct (isspace c) eqn:Ec; [reflexivity|]. simpl. rewrite Ec. reflexivity.
  - change (rstrip (String c (String d r)))
      with (match rstrip (String d r) with
            | "" => if isspace c then "" else String c ""
            | String x y => String c (String x y)
            end).
    rewrite IH. reflexivity.
Qed.

Lemma rstrip_keeps_first (c : ascii) (t : string) :
  isspace c = false -> exists r, rstrip (String c t) = String c r.
Proof.
  intros Hc. simpl. destruct (rstrip t); [rewrite Hc|]; eauto.
Qed.

Lemma strip_idem (s : string) : strip (strip s) = strip s.
Proof.
  unfold strip. destruct (lstrip_shape s) as [-> |(c & t & -> & Hc)];
    [reflexivity|].
  destruct (rstrip_keeps_first c t Hc) as [r Hr].
  assert (Hl : lstrip (rstrip (String c t)) = rstrip (String c t)).
  { rewrite Hr. simpl. rewrite Hc. reflexivity. }
  rewrite Hl. apply rstrip_idem.
Qed.

Lemma lstrip_space_app (ws s : string) :
  all_space ws = true -> lstrip (ws +:+ s) = lstrip s.
Proof.
  induction ws as [|c ws IH]; [reflexivity|]. cbn [all_space].
  intros [Hc Hws]%andb_true_iff. rewrite sapp_cons. cbn [lstrip].
  rewrite Hc. auto.
Qed.

Lemma rstrip_space (ws : string) : all_space ws = true -> rstrip ws = "".
Proof.
  induction ws as [|c ws IH]; [reflexivity|]. simpl.
  intros [Hc Hws]%andb_true_iff. rewrite (IH Hws), Hc. reflexivity.
Qed.

Lemma rstrip_app_space (s ws : string) :
  all_space ws = true -> rstrip (s +:+ ws) = rstrip s.
Proof.
  intros Hws. induction s as [|c s IH].
  - rewrite sapp_nil_l. apply rstrip_space, Hws.
  - rewrite sapp_cons. simpl. rewrite IH. reflexivity.
Qed.

Lemma strip_app_space (s ws : string) :
  all_space ws = true -> strip (s +:+ ws) = strip s.
Proof.
  intros Hws. unfold strip. induction s as [|c s IH].
  - rewrite sapp_nil_l. simpl.
    rewrite <- (sapp_nil_r ws), lstrip_space_app by exact Hws. reflexivity.
  - rewrite sapp_cons. simpl. destruct (isspace c); [exact IH|].
    rewrite <- sapp_cons. apply rstrip_app_space, Hws.
Qed.

(** X10: white space before and after the text of the prompt file does not
    change the prompts. *)
Theorem prepare_ignores_surrounding_space (candidates : list candidate_input)
    (ws1 prompt_file ws2 model : string) (ctx : option (gmap string string)) :
  all_space ws1 = true -> all_space ws2 = true ->
  _prepare candidates (ws1 +:+ prompt_file +:+ ws2) model ctx
  = _prepare candidates prompt_file model ctx.
Proof.
  intros H1 H2. unfold _prepare.
  assert (Hs : strip (ws1 +:+ prompt_file +:+ ws2) = strip prompt_file).
  { rewrite <- sapp_assoc, (strip_app_space _ _ H2). unfold strip.
    rewrite (lstrip_space_app _ _ H1). reflexivity. }
  rewrite Hs. reflexivity.
Qed.

Lemma prepare_ignores_surrounding_space_witness :
  _prepare [CObj president] ("  " +:+ "Q: {q}" +:+ String nl " ") llama None
  = _prepare [CObj president] "Q: {q}" llama None.
Proof.
  apply prepare_ignores_surrounding_space; reflexivity.
Defined.

Lemma startswith_app_l (a b p : string) :
  startswith a p = true -> startswith (a +:+ b) p = true.
Proof.
  intros [rest ->]%startswith_inv. rewrite sapp_assoc. apply startswith_app.
Qed.

Lemma contains_app_l (a b p : string) :
  contains a p = true -> contains (a +:+ b) p = true.
Proof.
  induction a as [|c a IH].
  - simpl. rewrite orb_false_r. intros H.
    destruct p; [destruct b; reflexivity|destruct p; discriminate].
  - rewrite sapp_cons. cbn [contains].
    intros [H|H]%orb_true_iff; apply orb_true_iff.
    + left. rewrite <- sapp_cons. apply startswith_app_l, H.
    + right. apply IH, H.
Qed.

Lemma contains_app_r (a b p : string) :
  contains b p = true -> contains (a +:+ b) p = true.
Proof.
  intros H. induction a as [|c a IH]; [exact H|].
  rewrite sapp_cons. cbn [contains]. rewrite IH. apply orb_true_r.
Qed.

Lemma lstrip_suffix (s : string) : exists pre, s = pre +:+ lstrip s.
Proof.
  induction s as [|c s [pre IH]]; [exists ""; reflexivity|]. simpl.
  destruct (isspace c); [|exists ""; reflexivity].
  exists (String c pre). rewrite sapp_cons, <- IH. reflexivity.
Qed.

Lemma rstrip_prefix (s : string) : exists suf, s = rstrip s +:+ suf.
Proof.
  induction s as [|c s [suf IH]]; [exists ""; reflexivity|]. simpl.
  destruct (rstrip s) as [|d r].
  - destruct (isspace c).
    + exists (String c s). reflexivity.
    + exists s. reflexivity.
  - exists suf. rewrite sapp_cons, <- IH. reflexivity.
Qed.

Lemma contains_strip (s p : string) :
  contains s p = false -> contains (strip s) p = false.
Proof.
  intros H. destruct (contains (strip s) p) eqn:E; [|reflexivity].
  unfold strip in E.
  destruct (rstrip_prefix (lstrip s)) as [suf Hsuf].
  destruct (lstrip_suffix s) as [pre Hpre].
  apply (contains_app_l _ suf) in E. rewrite <- Hsuf in E.
  apply (contains_app_r pre) in E. rewrite <- Hpre in E. congruence.
Qed.

Lemma before_prefix (sep s : string) : exists rest, s = before sep s +:+ rest.
Proof.
  induction s as [|c s [rest IH]]; cbn [before].
  - destruct (startswith "" sep); exists ""; reflexivity.
  - destruct (startswith (String c s) sep); [exists (String c s); reflexivity|].
    exists rest. rewrite sapp_cons, <- IH. reflexivity.
Qed.

(** The text before the first delimiter holds no delimiter. *)
Lemma before_free (sep s : string) :
  sep <> "" -> contains (before sep s) sep = false.
Proof.
  intros Hsep.
  assert (Hnil : contains "" sep = false).
  { destruct sep; [congruence|reflexivity]. }
  induction s as [|c s IH]; cbn [before].
  - destruct (startswith "" sep); exact Hnil.
  - destruct (startswith (String c s) sep) eqn:E; [exact Hnil|].
    cbn [contains]. rewrite IH, orb_false_r.
    destruct (startswith (String c (before sep s)) sep) eqn:E'; [|reflexivity].
    destruct (before_prefix sep s) as [rest Hrest].
    apply (startswith_app_l _ rest) in E'.
    rewrite sapp_cons, <- Hrest in E'. congruence.
Qed.

Lemma sdrop_app (a b : string) : sdrop (String.length a) (a +:+ b) = b.
Proof. induction a as [|c a IH]; [destruct b; reflexivity|exact IH]. Qed.

(** One step of the split: the text before the first delimiter, then the
    split of the text after it. *)
Lemma split_go_unfold (sep : string) :
  sep <> "" ->
  forall s cur,
    split_go sep 0 cur s
    = (String.rev cur +:+ before sep s)
      :: match after sep s with
         | Some t => split_go sep 0 "" t
         | None => []
         end.
Proof.
  intros Hsep. destruct sep as [|x sep']; [congruence|].
  induction s as [|c s IH]; intros cur.
  - simpl. rewrite sapp_nil_r. reflexivity.
  - cbn [split_go before after].
    destruct (startswith (String c s) (String x sep')) eqn:E.
    + rewrite sapp_nil_r. f_equal.
      apply startswith_inv in E as [rest E]. rewrite sapp_cons in E.
      injection E as -> ->.
      replace (String.length (String x sep') - 1)%nat
        with (String.length sep') by (simpl; lia).
      rewrite split_go_skip.
      change (sdrop (String.length (String x sep')) (String x (sep' +:+ rest)))
        with (sdrop (String.length sep') (sep' +:+ rest)).
      rewrite sdrop_app. reflexivity.
    + rewrite IH, rev_cons_app. reflexivity.
Qed.

Lemma after_shorter (sep s t : string) :
  sep <> "" -> after sep s = Some t -> (String.length t < String.length s)%nat.
Proof.
  intros Hsep. destruct sep as [|x sep']; [congruence|].
  induction s as [|c s IH]; cbn [after].
  - discriminate.
  - destruct (startswith (String c s) (String x sep')) eqn:E.
    + intros [= <-]. apply startswith_inv in E as [rest E].
      rewrite sapp_cons in E. injection E as -> ->. clear IH.
      rewrite sdrop_app. cbn [String.length]. rewrite slength_app. lia.
    + intros H%IH. simpl. lia.
Qed.

(** No segment of a split holds the delimiter. *)
Lemma split_segments_free (sep : string) :
  sep <> "" ->
  forall s, Forall (fun seg => contains seg sep = false) (split s sep).
Proof.
  intros Hsep s. unfold split.
  remember (String.length s) as n eqn:Hn.
  assert (Hle : (String.length s <= n)%nat) by lia. clear Hn.
  revert s Hle. induction n as [|n IH]; intros s Hle;
    rewrite (split_go_unfold sep Hsep); constructor;
    try (rewrite sapp_nil_l; apply before_free, Hsep).
  - destruct (after sep s) as [t|] eqn:E; [|constructor].
    apply (after_shorter _ _ _ Hsep) in E. lia.
  - destruct (after sep s) as [t|] eqn:E; [|constructor].
    apply IH. apply (after_shorter _ _ _ Hsep) in E. lia.
Qed.


Lemma Forall_last_string (P : string -> Prop) (l : list string) :
  Forall P l -> l <> [] -> P (List.last l "").
Proof.
  induction 1 as [|x l Hx Hl IH]; [congruence|]. intros _.
  destruct l as [|y l]; [exact Hx|]. apply IH. discriminate.
Qed.

Lemma split_nonempty (s sep : string) : split s sep <> [].
Proof. apply split_go_nonempty. Qed.

Lemma build_chat_user_clean (model p : string) :
  special_family model = false ->
  exists before u,
    build_chat model p = before ++ [user_turn u] /\
    contains u "###" = false /\ strip u = u.
Proof.
  intros Hfam. unfold build_chat. fold (special_family model). rewrite Hfam.
  assert (Hu : contains (strip (List.last (split p "###") "")) "###" = false).
  { apply contains_strip.
    apply (Forall_last_string (fun seg => contains seg "###" = false)).
    - apply split_segments_free. discriminate.
    - apply split_nonempty. }
  destruct (1 <? length (split p "###"))%nat;
    [destruct (truthy _)|]; eexists _, _;
    (split; [reflexivity|split; [exact Hu|apply strip_idem]]).
Qed.

(** X11: for a conversational model outside the two families, the user turn
    of every prompt holds no "###" and has no white space at its ends. *)
Theorem prepare_user_turn_clean (candidates : list candidate_input)
    (prompt_file model : string) (ctx : option (gmap string string))
    (examples : list prompt) :
  _prepare candidates prompt_file model ctx = inr examples ->
  _is_conversational model = true ->
  special_family model = false ->
  Forall (fun p =>
            exists before u,
              p = Chat (before ++ [user_turn u]) /\
              contains u "###" = false /\ strip u = u)
    examples.
Proof.
  intros H%prepare_loop_Forall2 Hconv Hfam.
  induction H as [|c p cs ps Hp _ IH]; constructor; [|exact IH].
  unfold prepare_one in Hp. rewrite Hconv in Hp.
  destruct (fill_template _ ctx c) as [e|filled]; [discriminate|].
  injection Hp as <-.
  destruct (build_chat_user_clean model filled Hfam) as (b & u & -> & Hu).
  eauto.
Qed.

Lemma prepare_user_turn_clean_witness :
  let examples :=
    [Chat [system_turn "Judge. ### Be strict. ";
           user_turn "who is the president?"]] in
  _prepare [CObj president] "Judge. ### Be strict. ###  {q}  " llama None
  = inr examples /\
  Forall (fun p =>
            exists before u,
              p = Chat (before ++ [user_turn u]) /\
              contains u "###" = false /\ strip u = u)
    examples.
Proof.
  intros examples.
  assert (H : _prepare [CObj president] "Judge. ### Be strict. ###  {q}  "
                llama None = inr examples) by (vm_compute; reflexivity).
  split; [exact H|].
  apply (prepare_user_turn_clean _ _ _ _ _ H); vm_compute; reflexivity.
Defined.

(** ** The second-pass builder *)


(** X12: the builder makes one chat per sampled response of each pair of a
    chat and its responses, and pairs beyond the shorter of the two lists are
    dropped: with one response text per chat, the number of chats built is
    the smaller of the two lengths. *)
Theorem prepare_second_pass_count (chats : list (list turn)) :
  (forall model_responses,
     length (_prepare_second_pass chats model_responses)
     = sum_list (zip_with (fun _ resp => length (samples resp))
                   chats model_responses)) /\
  (forall responses : list string,
     length (_prepare_second_pass chats (map RespStr responses))
     = Nat.min (length chats) (length responses)).
Proof.
  assert (H : forall model_responses,
             length (_prepare_second_pass chats model_responses)
             = sum_list (zip_with (fun _ resp => length (samples resp))
                           chats model_responses)).
  { induction chats as [|chat chats IH]; intros [|resp resps]; try reflexivity.
    cbn [_prepare_second_pass zip_with]. rewrite length_app, length_map, IH.
    destruct resp; reflexivity. }
  split; [exact H|]. intros responses. rewrite H. clear H.
  revert responses. induction chats as [|chat chats IH];
    intros [|r rs]; try reflexivity.
  simpl. rewrite IH. reflexivity.
Qed.


(** X14: the two passes together: for a chat that [_prepare] built, the
    second pass gives a chat of three turns exactly when the first pass made
    no system turn, which is the case for the two special families; when the
    first pass made a system turn, the second pass puts the user turn in a
    list of its own inside the chat. *)
Theorem second_pass_of_prepared_chat (template model : string)
    (ctx : option (gmap string string)) (candidate : candidate_input)
    (chat : list turn) (r : string) :
  prepare_one template model ctx candidate = inr (Chat chat) ->
  ((exists u,
      chat = [user_turn u] /\
      _prepare_second_pass [chat] [RespStr r]
      = [HTurn (user_turn u) :: closing_turns r])
   \/
   (exists i u,
      i <> "" /\ special_family model = false /\
      chat = [system_turn i; user_turn u] /\
      _prepare_second_pass [chat] [RespStr r]
      = [HList [user_turn u] :: closing_turns r])).
Proof.
  unfold prepare_one.
  destruct (fill_template template ctx candidate) as [e|filled];
    [discriminate|].
  destruct (_is_conversational model); [|discriminate]. intros [= <-].
  unfold build_chat. fold (special_family model).
  destruct (special_family model) eqn:Hfam; [left; eexists; split; reflexivity|].
  destruct (1 <? length (split filled "###"))%nat;
    [|left; eexists; split; reflexivity].
  destruct (truthy (join "###" (removelast (split filled "###")))) eqn:E;
    [|left; eexists; split; reflexivity].
  right. eexists _, _. split; [|split; [reflexivity|split; reflexivity]].
  unfold truthy in E. apply negb_true_iff, String.eqb_neq in E. exact E.
Qed.

Lemma second_pass_of_prepared_chat_witness :
  prepare_one "Judge.###{q}" llama None (CObj president)
  = inr (Chat [system_turn "Judge."; user_turn "who is the president?"]) /\
  ((exists u,
      [system_turn "Judge."; user_turn "who is the president?"]
      = [user_turn u] /\
      _prepare_second_pass
        [[system_turn "Judge."; user_turn "who is the president?"]]
        [RespStr "Yes ### because"]
      = [HTurn (user_turn u) :: closing_turns "Yes ### because"])
   \/
   (exists i u,
      i <> "" /\ special_family llama = false /\
      [system_turn "Judge."; user_turn "who is the president?"]
      = [system_turn i; user_turn u] /\
      _prepare_second_pass
        [[system_turn "Judge."; user_turn "who is the president?"]]
        [RespStr "Yes ### because"]
      = [HList [user_turn u] :: closing_turns "Yes ### because"])).
Proof.
  assert (H : prepare_one "Judge.###{q}" llama None (CObj president)
              = inr (Chat [system_turn "Judge.";
                           user_turn "who is the president?"]))
    by (vm_compute; reflexivity).
  split; [exact H|].
  exact (second_pass_of_prepared_chat _ _ _ _ _ "Yes ### because" H).
Defined.

(** ** The driver: failures *)

Section DriverFailures.

Variable World : Type.
Variable ollama : World -> request -> (string + string) * World.
Variable model : string.

Lemma replies_all_fail (w w' : World) (reqs : list request)
    (resps : list string) :
  (forall w0 req, exists e w1, ollama w0 req = (inl e, w1)) ->
  replies ollama w reqs resps w' -> Forall (fun resp => resp = "") resps.
Proof.
  intros Hfail. induction 1 as [|w w1 w' req reply reqs resps Ho _ IH];
    constructor; [|exact IH].
  destruct (Hfail w req) as (e & w2 & He). rewrite He in Ho.
  injection Ho as <- _. reflexivity.
Qed.

(** What [llm_eval] does when the prompts are built, for [Candidate]
    objects. *)
Lemma llm_eval_run (cands : list Candidate) (prompt_file : string)
    (ctx : option (gmap string string)) (st : state World)
    (examples : list prompt) :
  _prepare (map CObj cands) prompt_file model ctx = inr examples ->
  exists outs resps reqs st',
    llm_eval World ollama model (map CObj cands) (Some prompt_file) ctx st
    = (inr outs, st') /\
    length outs = length cands /\ length resps = length cands /\
    replies ollama (world st) reqs resps (world st') /\
    forall i c,
      cands !! i = Some c ->
      exists j resp,
        resps !! i = Some resp /\
        outs !! i = Some (py_round_div (sum [j]) 1, resp, [j]) /\
        fst (_parse_response resp (answer c) (text (question c))) = inr j.
Proof.
  intros Hprep. unfold llm_eval. unfold bind at 1. rewrite Hprep. simpl.
  apply prepare_loop_Forall2 in Hprep.
  destruct (collect_responses_run World ollama model _ _ _ _ st Hprep)
    as (resps & reqs & st1 & Hrun & Hsent & Hreqs & Hrep).
  unfold bind at 1. rewrite Hrun.
  assert (Hlen : length resps = length cands).
  { rewrite (replies_length _ _ _ _ _ _ Hrep).
    rewrite <- (Forall2_length _ _ _ Hreqs), <- (Forall2_length _ _ _ Hprep).
    apply length_map. }
  destruct (judge_loop_run World cands resps Hlen (length cands) 0%nat st1)
    as (outs & st' & Hj & Hw & _ & Hl & Hout); [lia|].
  rewrite length_map, Hj. exists outs, resps, reqs, st'.
  split; [reflexivity|]. split; [exact Hl|]. split; [exact Hlen|].
  split; [rewrite Hw; exact Hrep|].
  intros i c Hc. destruct (Hout i c) as (j & resp & Hr & Ho & Hp & _).
  { apply lookup_lt_Some in Hc. exact Hc. }
  { exact Hc. }
  exists j, resp. auto.
Qed.

(** The second loop raises on the first candidate that is a dict. *)
Lemma judge_loop_dict (candidates : list candidate_input)
    (resps : list string) :
  length resps = length candidates ->
  forall n a st,
    (a + n <= length candidates)%nat ->
    (exists i d_a d_ca d_q,
       (a <= i < a + n)%nat /\ candidates !! i = Some (CDict d_a d_ca d_q)) ->
    fst (judge_loop World candidates resps (List.seq a n) st)
    = inl AttributeError.
Proof.
  intros Hlen n. induction n as [|n IH]; intros a st Ha (i & x & y & z & Hi & Hd).
  - lia.
  - destruct (lookup_lt_is_Some_2 candidates a) as [c Hc]; [lia|].
    destruct (lookup_lt_is_Some_2 resps a) as [resp Hr]; [lia|].
    cbn [List.seq judge_loop]. unfold bind at 1. rewrite Hr. simpl.
    unfold bind at 1. rewrite Hc. simpl. unfold bind at 1.
    destruct c as [c|d_a d_ca d_q]; [|reflexivity].
    unfold parse_logged.
    destruct (parse_response_total resp (answer c) (text (question c)))
      as (j & lg & -> & _).
    unfold bind at 1. simpl. unfold bind at 1. simpl. unfold bind at 1.
    assert (Hi' : (S a <= i < S a + n)%nat).
    { destruct (decide (i = a)) as [->|]; [congruence|lia]. }
    specialize (IH (S a) {| world := world st; sent := sent st;
                           log := log st ++ lg |}
                  ltac:(lia) (ex_intro _ i (ex_intro _ x (ex_intro _ y
                          (ex_intro _ z (conj Hi' Hd)))))).
    destruct (judge_loop World candidates resps (List.seq (S a) n) _)
      as [[e|outs] st']; simpl in IH; [|discriminate].
    rewrite IH. reflexivity.
Qed.

End DriverFailures.

(** X15: when the endpoint cannot be reached, [llm_eval] does not fail: every
    candidate gets the score 0, the empty text as response and the one
    judgment 0. *)
Theorem llm_eval_unreachable_endpoint (World : Type)
    (ollama : World -> request -> (string + string) * World)
    (model : string) (cands : list Candidate) (prompt_file : string)
    (ctx : option (gmap string string)) (st : state World)
    (examples : list prompt) :
  (forall w req, exists e w', ollama w req = (inl e, w')) ->
  _prepare (map CObj cands) prompt_file model ctx = inr examples ->
  fst (llm_eval World ollama model (map CObj cands) (Some prompt_file) ctx st)
  = inr (map (fun _ => (0, "", [0])) cands).
Proof.
  intros Hfail Hprep.
  destruct (llm_eval_run World ollama model cands prompt_file ctx st examples
              Hprep)
    as (outs & resps & reqs & st' & -> & Hl & Hlr & Hrep & Hout).
  simpl. f_equal. apply list_eq. intros i.
  rewrite list_lookup_fmap.
  destruct (cands !! i) as [c|] eqn:Hc.
  - destruct (Hout i c Hc) as (j & resp & Hr & -> & Hp).
    pose proof (replies_all_fail World ollama _ _ _ _ Hfail Hrep) as Hall.
    rewrite Forall_forall in Hall.
    assert (resp = "") as -> by (apply Hall; eapply list_elem_of_lookup_2, Hr).
    assert (Hj : j = 0).
    { assert (H0 : fst (_parse_response "" (answer c) (text (question c)))
                   = inr 0) by reflexivity.
      congruence. }
    subst j. reflexivity.
  - simpl. apply lookup_ge_None. apply lookup_ge_None in Hc. lia.
Qed.

Lemma llm_eval_unreachable_endpoint_witness :
  let examples :=
    [Flat "who is the president? Biden"; Flat "who is the president? Biden"] in
  (forall w req, exists e w', unreachable w req = (inl e, w')) /\
  _prepare (map CObj [president; president]) "{q} {candidate_answer}"
    "google/flan-t5-xl" None = inr examples /\
  fst (llm_eval unit unreachable "google/flan-t5-xl"
         (map CObj [president; president]) (Some "{q} {candidate_answer}")
         None (start_state tt))
  = inr [(0, "", [0]); (0, "", [0])].
Proof.
  intros examples.
  assert (Hf : forall w req, exists e w', unreachable w req = (inl e, w'))
    by (intros w req; exists "connection refused", tt; reflexivity).
  assert (Hp : _prepare (map CObj [president; president])
                 "{q} {candidate_answer}" "google/flan-t5-xl" None
               = inr examples) by (vm_compute; reflexivity).
  split; [exact Hf|]. split; [exact Hp|].
  exact (llm_eval_unreachable_endpoint unit unreachable _ _ _ None
           (start_state tt) examples Hf Hp).
Defined.

(** X16: [llm_eval] checks its inputs before the first request: when the
    prompt file is missing it raises the [AssertionError], and when
    [_prepare] raises, as it does once the template cannot be filled for the
    first candidate, it raises that exception; in both cases no request has
    been posted and nothing has been logged. *)
Theorem llm_eval_raises_before_any_request (World : Type)
    (ollama : World -> request -> (string + string) * World)
    (model : string) (candidates : list candidate_input)
    (ctx : option (gmap string string)) (st : state World) :
  llm_eval World ollama model candidates None ctx st
  = (inl (AssertionError "prompt_file is required in llm_eval"), st) /\
  (forall file e,
     e <> Unsupported ->
     _prepare candidates file model ctx = inl e ->
     llm_eval World ollama model candidates (Some file) ctx st = (inl e, st)) /\
  (forall file e c rest,
     e <> Unsupported ->
     candidates = c :: rest ->
     _prepare [c] file model ctx = inl e ->
     llm_eval World ollama model candidates (Some file) ctx st = (inl e, st)).
Proof.
  assert (Hraise : forall file e,
             _prepare candidates file model ctx = inl e ->
             llm_eval World ollama model candidates (Some file) ctx st
             = (inl e, st)).
  { intros file e Hp. unfold llm_eval. unfold bind at 1. rewrite Hp.
    reflexivity. }
  split; [reflexivity|]. split; [intros file e _; apply Hraise|].
  intros file e c rest _ -> Hc. apply Hraise.
  unfold _prepare in *. cbn [prepare_loop] in *.
  destruct (prepare_one (strip file) model ctx c) as [e'|p];
    [injection Hc as ->; reflexivity|discriminate].
Qed.

Lemma llm_eval_raises_before_any_request_witness :
  llm_eval _ scripted llama [CObj president; CObj president]
    (Some "{q} {context}") None (start_state [inr "yes"; inr "yes"])
  = (inl (KeyError "context"), start_state [inr "yes"; inr "yes"]).
Proof.
  apply (proj1 (proj2 (llm_eval_raises_before_any_request _ scripted llama
                         [CObj president; CObj president] None
                         (start_state [inr "yes"; inr "yes"])))).
  - discriminate.
  - vm_compute. reflexivity.
Defined.

(** X17: [_prepare] accepts candidates given as dicts, [llm_eval] does not:
    with a dict among the candidates it posts the request of every candidate
    and then raises an [AttributeError]. *)
Theorem llm_eval_dict_candidate (World : Type)
    (ollama : World -> request -> (string + string) * World)
    (model : string) (candidates : list candidate_input)
    (prompt_file : string) (ctx : option (gmap string string))
    (st : state World) (examples : list prompt)
    (i : nat) (d_answers : list string) (d_candidate_answer d_question : string) :
  _prepare candidates prompt_file model ctx = inr examples ->
  candidates !! i = Some (CDict d_answers d_candidate_answer d_question) ->
  fst (llm_eval World ollama model candidates (Some prompt_file) ctx st)
  = inl AttributeError /\
  length (sent (snd (llm_eval World ollama model candidates
                       (Some prompt_file) ctx st)))
  = (length (sent st) + length candidates)%nat.
Proof.
  intros Hprep Hd. unfold llm_eval. unfold bind at 1 3. rewrite Hprep. simpl.
  apply prepare_loop_Forall2 in Hprep.
  destruct (collect_responses_run World ollama model _ _ _ _ st Hprep)
    as (resps & reqs & st1 & Hrun & Hsent & Hreqs & Hrep).
  unfold bind at 1 2. rewrite Hrun.
  assert (Hlen : length resps = length candidates).
  { rewrite (replies_length _ _ _ _ _ _ Hrep).
    rewrite <- (Forall2_length _ _ _ Hreqs). symmetry.
    apply (Forall2_length _ _ _ Hprep). }
  split.
  - apply (judge_loop_dict World candidates resps Hlen); [lia|].
    exists i, d_answers, d_candidate_answer, d_question.
    split; [|exact Hd]. apply lookup_lt_Some in Hd. lia.
  - rewrite judge_loop_sent, Hsent, length_app.
    rewrite <- (Forall2_length _ _ _ Hreqs), (Forall2_length _ _ _ Hprep).
    reflexivity.
Qed.

Lemma llm_eval_dict_candidate_witness :
  let candidates :=
    [CObj president; CDict ["Paris"] "Paris." "capital of France"] in
  let run :=
    llm_eval _ scripted "google/flan-t5-xl" candidates (Some "{q}") None
      (start_state [inr "yes"; inr "yes"]) in
  _prepare candidates "{q}" "google/flan-t5-xl" None
  = inr [Flat "who is the president?"; Flat "capital of France?"] /\
  fst run = inl AttributeError /\
  length (sent (snd run)) = 2%nat.
Proof.
  intros candidates run.
  assert (Hp : _prepare candidates "{q}" "google/flan-t5-xl" None
               = inr [Flat "who is the president?"; Flat "capital of France?"])
    by (vm_compute; reflexivity).
  split; [exact Hp|].
  exact (llm_eval_dict_candidate _ scripted _ candidates "{q}" None
           (start_state [inr "yes"; inr "yes"]) _ 1%nat ["Paris"] "Paris."
           "capital of France" Hp eq_refl).
Defined.

(** ** [infer_vicuna] *)

(** X18: [infer_vicuna] and the request step of [llm_eval] are the same call:
    in the same world and for the same prompt text and model they post the
    same request, leave the same world, and return the same text, which is
    the empty text when the call fails. *)
Theorem infer_vicuna_agrees_with_llm_eval (World : Type)
    (ollama : World -> request -> (string + string) * World)
    (prompt model_name : string) (w : World) (posted : list request)
    (records : list log_record) (lines : list stdout_line) :
  let v := infer_vicuna ollama prompt model_name
             {| v_world := w; v_sent := posted; v_stdout := lines |} in
  let g := generate World ollama model_name (PText prompt)
             {| world := w; sent := posted; log := records |} in
  fst g = inr (fst v) /\
  world (snd g) = v_world (snd v) /\
  sent (snd g) = v_sent (snd v) /\
  v_sent (snd v)
  = posted ++ [{| req_model := model_name; req_prompt := PText prompt;
                  req_stream := false |}] /\
  (fst (ollama w {| req_model := model_name; req_prompt := PText prompt;
                    req_stream := false |})
   = inr (fst v)
   \/ (fst v = "" /\
       exists e,
         fst (ollama w {| req_model := model_name; req_prompt := PText prompt;
                          req_stream := false |}) = inl e /\
         v_stdout (snd v)
         = lines ++ [PrintedOllamaFailed e; Printed "--------------------";
                     Printed ("user: " +:+ prompt); Printed "vicuna: ";
                     Printed "--------------------"])).
Proof.
  unfold infer_vicuna, generate. simpl.
  destruct (ollama w _) as [[e|response] w']; simpl.
  - repeat split. right. split; [reflexivity|]. exists e. auto.
  - repeat split. left. reflexivity.
Qed.

(** ** The parser: a token at the end of the response *)

Lemma star_any_app (pre s : string) (k : string -> option groups) (x : groups) :
  star_greedy AAny s k = Some x -> star_greedy AAny (pre +:+ s) k = Some x.
Proof.
  intros H. induction pre as [|c pre IH]; [exact H|].
  rewrite sapp_cons. simpl. rewrite IH. reflexivity.
Qed.

Lemma lower_char_cases (c : ascii) :
  (lower_char c = "y"%char -> c = "y"%char \/ c = "Y"%char) /\
  (lower_char c = "e"%char -> c = "e"%char \/ c = "E"%char) /\
  (lower_char c = "s"%char -> c = "s"%char \/ c = "S"%char) /\
  (lower_char c = "n"%char -> c = "n"%char \/ c = "N"%char) /\
  (lower_char c = "o"%char -> c = "o"%char \/ c = "O"%char).
Proof.
  destruct c as [[] [] [] [] [] [] [] []]; repeat split; intros H;
    vm_compute in H; try discriminate H; auto.
Qed.

Lemma token_yes_cases (t : string) :
  lower t = "yes" ->
  In t ["yes"; "yeS"; "yEs"; "yES"; "Yes"; "YeS"; "YEs"; "YES"].
Proof.
  destruct t as [|c1 [|c2 [|c3 [|]]]]; try discriminate.
  simpl. intros [= H1 H2 H3].
  apply (proj1 (lower_char_cases c1)) in H1.
  apply (proj1 (proj2 (lower_char_cases c2))) in H2.
  apply (proj1 (proj2 (proj2 (lower_char_cases c3)))) in H3.
  destruct H1 as [-> | ->], H2 as [-> | ->], H3 as [-> | ->]; tauto.
Qed.

Lemma token_no_cases (t : string) :
  lower t = "no" -> In t ["no"; "nO"; "No"; "NO"].
Proof.
  destruct t as [|c1 [|c2 [|]]]; try discriminate.
  simpl. intros [= H1 H2].
  apply (proj1 (proj2 (proj2 (proj2 (lower_char_cases c1))))) in H1.
  apply (proj2 (proj2 (proj2 (proj2 (lower_char_cases c2))))) in H2.
  destruct H1 as [-> | ->], H2 as [-> | ->]; tauto.
Qed.

(** The first anchored pattern on a text that ends with [tail]: when the
    pattern, tried on [tail] alone, finds the token in group 1, it finds the
    same on the whole text. *)
Lemma scan_patterns_tail (pre tail : string) (m : groups) (t : string) :
  re_match (entry_regex (List.hd (PStr REps) patterns)) tail = Some m ->
  m !! 1%nat = Some t ->
  scan_patterns patterns (pre +:+ tail) = inr (capitalize t).
Proof.
  intros Hm Ht. unfold patterns in *. cbn [scan_patterns List.hd entry_regex] in *.
  unfold re_match in *. cbn [rcat rmatch] in *.
  rewrite (star_any_app pre tail _ m Hm).
  unfold group. rewrite Ht. reflexivity.
Qed.

Ltac tail_case :=
  match goal with
  | |- scan_patterns patterns (?pre +:+ ?tail) = _ =>
      erewrite (scan_patterns_tail pre tail);
      [|vm_compute; reflexivity|vm_compute; reflexivity]; reflexivity
  end.

(** X19: the last word decides: a response that does not start with yes or
    no and that ends with "yes" in any letter case, alone or followed by a
    full stop or an exclamation mark, is judged 1; with "no" it is judged 0;
    nothing is logged. *)
Theorem parse_response_trailing_token
    (pre t punct candidate_answer question : string) :
  In punct [""; "."; "!"] ->
  starts_yes_or_no (pre +:+ t +:+ punct) = false ->
  (lower t = "yes" ->
   _parse_response (pre +:+ t +:+ punct) candidate_answer question
   = (inr 1, [])) /\
  (lower t = "no" ->
   _parse_response (pre +:+ t +:+ punct) candidate_answer question
   = (inr 0, [])).
Proof.
  intros Hp [Hy Hn]%orb_false_elim. unfold _parse_response.
  rewrite Hy, Hn. clear Hy Hn.
  split; intros Ht.
  - assert (Hs : scan_patterns patterns (pre +:+ t +:+ punct) = inr "Yes").
    { apply token_yes_cases in Ht. simpl in Ht, Hp.
      repeat (destruct Ht as [<-|Ht]; [|]); try contradiction;
        repeat (destruct Hp as [<-|Hp]; [|]); try contradiction;
        tail_case. }
    rewrite Hs. reflexivity.
  - assert (Hs : scan_patterns patterns (pre +:+ t +:+ punct) = inr "No").
    { apply token_no_cases in Ht. simpl in Ht, Hp.
      repeat (destruct Ht as [<-|Ht]; [|]); try contradiction;
        repeat (destruct Hp as [<-|Hp]; [|]); try contradiction;
        tail_case. }
    rewrite Hs. reflexivity.
Qed.

Lemma parse_response_trailing_token_witness :
  _parse_response ("After some thought, I conclude: " +:+ "YES" +:+ "!")
    "Biden" "who?" = (inr 1, []) /\
  _parse_response ("The dates differ, so " +:+ "no" +:+ ".")
    "Biden" "who?" = (inr 0, []).
Proof.
  split.
  - apply (proj1 (parse_response_trailing_token
                    "After some thought, I conclude: " "YES" "!" "Biden"
                    "who?" ltac:(simpl; tauto) eq_refl)).
    reflexivity.
  - apply (proj2 (parse_response_trailing_token
                    "The dates differ, so " "no" "." "Biden" "who?"
                    ltac:(simpl; tauto) eq_refl)).
    reflexivity.
Defined.

(** ** The prompt builder: the values are copied as they are *)

(** X20: the candidate answer and the question are copied into the prompt as
    they are, braces included: they are not read as fields of the template.
    For a template of literal text around one field, the prompt is that text
    around the value. *)
Theorem fill_template_copies_values (pre post : string)
    (ctx : option (gmap string string)) (candidate : candidate_input) :
  braces_free pre = true -> braces_free post = true ->
  fill_template (pre +:+ "{candidate_answer}" +:+ post) ctx candidate
  = inr (pre +:+ (candidate_fields candidate).1.2 +:+ post) /\
  fill_template (pre +:+ "{q}" +:+ post) ctx candidate
  = inr (pre +:+ lookup_key candidate +:+ post).
Proof.
  intros Hpre Hpost. unfold fill_template, lookup_key.
  destruct (candidate_fields candidate) as [[gold ca] q]. simpl.
  set (base := base_kwargs (normalize_question q) (render_gold gold) ca).
  assert (Hpost' : forall kw, format_go kw FText post = inr post).
  { intros kw. rewrite <- (sapp_nil_r post) at 1.
    rewrite (format_go_literal _ _ _ Hpost). simpl.
    rewrite sapp_nil_r. reflexivity. }
  assert (H : forall kw : gmap string pyval,
             kw !! "candidate_answer" = Some (VStr ca) ->
             kw !! "q" = Some (VStr (normalize_question q)) ->
             format (pre +:+ "{candidate_answer}" +:+ post) kw
             = inr (pre +:+ ca +:+ post)
             /\ format (pre +:+ "{q}" +:+ post) kw
                = inr (pre +:+ normalize_question q +:+ post)).
  { intros kw Hca Hq. unfold format.
    rewrite !(format_go_literal _ _ _ Hpre).
    change ("{candidate_answer}" +:+ post)
      with (String "{" ("candidate_answer" +:+ String "}" post)).
    change ("{q}" +:+ post) with (String "{" ("q" +:+ String "}" post)).
    rewrite !format_go_field by reflexivity.
    unfold format_field.
    change (all_digits "candidate_answer") with false.
    change (all_digits "q") with false. cbv iota.
    rewrite Hca, Hq, Hpost'. simpl. auto. }
  assert (Hb1 : base !! "candidate_answer" = Some (VStr ca)) by reflexivity.
  assert (Hb2 : base !! "q" = Some (VStr (normalize_question q)))
    by reflexivity.
  destruct ctx as [m|]; [|exact (H base Hb1 Hb2)].
  destruct (bool_decide (m <> ∅)); [|exact (H base Hb1 Hb2)].
  apply H; rewrite lookup_insert_ne by discriminate; assumption.
Qed.

Lemma fill_template_copies_values_witness :
  fill_template ("A: " +:+ "{candidate_answer}" +:+ " (end)") None
    (CDict ["x"] "{q} or {0}" "which")
  = inr "A: {q} or {0} (end)".
Proof.
  exact (proj1 (fill_template_copies_values "A: " " (end)" None
                  (CDict ["x"] "{q} or {0}" "which") eq_refl eq_refl)).
Defined.
